(** * Verification of the USD stage reader and of the keyframe-list interface

    Shallow embedding of
    - [source/blender/io/usd/intern/usd_reader_stage.cc]
      (class [USDStageReader]: filtering, Xform merging, reader creation,
      registry lifetime), and
    - [source/blender/editors/include/ED_keyframes_keylist.h]
      (the [eKeyframeHandleDrawOpts] enumeration and the declared query
      interface of [AnimKeylist]).

    Pointers to readers are indices into an arena ([heap]); a null pointer is
    [None].  The USD library (namespace [pxr]) is a third-party boundary: the
    part of it the adapter calls is modelled in module [Pxr]. *)

From Stdlib Require Import ZArith QArith Ascii String List Bool Lia.
From stdpp Require Import base option list strings.

Set Warnings "-register-all".

Local Close Scope Q_scope.
Local Open Scope nat_scope.
Local Open Scope string_scope.

(* ===================================================================== *)
(** ** The pxr boundary: schema types, prims, attributes, stages          *)
(* ===================================================================== *)

Module Pxr.

(** The schema classes the adapter tests with [prim.IsA<T>()], together with
    the classes that link them in USD's single-inheritance schema hierarchy. *)
Inductive Schema : Set :=
| UsdTyped
| UsdGeomImageable
| UsdGeomScope
| UsdGeomXformable
| UsdGeomXform
| UsdGeomCamera
| UsdLuxLight
| UsdLuxSphereLight
| UsdGeomBoundable
| UsdGeomGprim
| UsdVolVolume
| UsdGeomPointBased
| UsdGeomMesh
| UsdGeomCurves
| UsdGeomBasisCurves
| UsdGeomNurbsCurves
| UsdShadeMaterial.

#[global] Instance Schema_eq_dec : EqDecision Schema.
Proof. solve_decision. Defined.

(** Direct base class of a schema class. *)
Definition schema_base (t : Schema) : option Schema :=
  match t with
  | UsdTyped => None
  | UsdGeomImageable => Some UsdTyped
  | UsdGeomScope => Some UsdGeomImageable
  | UsdGeomXformable => Some UsdGeomImageable
  | UsdGeomXform => Some UsdGeomXformable
  | UsdGeomCamera => Some UsdGeomXformable
  | UsdLuxLight => Some UsdGeomXformable
  | UsdLuxSphereLight => Some UsdLuxLight
  | UsdGeomBoundable => Some UsdGeomXformable
  | UsdGeomGprim => Some UsdGeomBoundable
  | UsdVolVolume => Some UsdGeomGprim
  | UsdGeomPointBased => Some UsdGeomGprim
  | UsdGeomMesh => Some UsdGeomPointBased
  | UsdGeomCurves => Some UsdGeomPointBased
  | UsdGeomBasisCurves => Some UsdGeomCurves
  | UsdGeomNurbsCurves => Some UsdGeomCurves
  | UsdShadeMaterial => Some UsdTyped
  end.

(** [derives n t s]: [t] is [s] or reaches [s] in at most [n] base steps. *)
Fixpoint derives (n : nat) (t s : Schema) : bool :=
  if decide (t = s) then true
  else match n, schema_base t with
       | S n', Some b => derives n' b s
       | _, _ => false
       end.

(** The hierarchy above is 7 classes deep. *)
Definition schema_is_a (t s : Schema) : bool := derives 8 t s.

Definition TfToken := string.

(** [UsdGeomTokens]. *)
Module UsdGeomTokens.
Definition invisible : TfToken := "invisible".
Definition inherited : TfToken := "inherited".
Definition guide : TfToken := "guide".
Definition proxy : TfToken := "proxy".
Definition render : TfToken := "render".
End UsdGeomTokens.

(** A valid [UsdAttribute].  [attr_value] is what [Get(&v)] writes at the
    default time; [None] means [Get] fails and leaves [v] as it was. *)
Record UsdAttribute := mkAttr {
  ValueMightBeTimeVarying : bool;
  attr_value : option TfToken
}.

(** [attr.Get(&v)] on a default-constructed (empty) token [v]. *)
Definition Get (a : UsdAttribute) : TfToken :=
  match attr_value a with
  | Some v => v
  | None => ""
  end.

(** What a prim carries, as far as the adapter looks at it.  [typeName] is
    [None] for an untyped prim.  An attribute handle that tests false in C++
    ([!attr]) is [None]. *)
Record PrimData := mkPrimData {
  name : string;
  typeName : option Schema;
  is_active : bool;
  is_loaded : bool;
  is_defined : bool;
  is_abstract : bool;
  is_instance_proxy : bool;
  visibility_attr : option UsdAttribute;
  purpose_attr : option UsdAttribute;
  xform_ops : list string
}.

(** The composed prim tree of a stage. *)
Inductive PrimNode :=
| Node (d : PrimData) (children : list PrimNode).

Definition node_data (n : PrimNode) : PrimData :=
  match n with Node d _ => d end.

Definition node_children (n : PrimNode) : list PrimNode :=
  match n with Node _ cs => cs end.

(** A valid [UsdPrim] handle: the prim's data and the handle of its parent.
    The pseudo-root is the one valid prim without a parent.  An invalid prim
    is [None : option UsdPrim]. *)
Inductive UsdPrim :=
| Prim (d : PrimData) (parent : option UsdPrim).

Definition prim_data (p : UsdPrim) : PrimData :=
  match p with Prim d _ => d end.

Definition GetParent (p : UsdPrim) : option UsdPrim :=
  match p with Prim _ parent => parent end.

Definition IsPseudoRoot (p : UsdPrim) : bool :=
  match GetParent p with
  | None => true
  | Some _ => false
  end.

(** [prim.IsA<T>()]. *)
Definition IsA (p : UsdPrim) (s : Schema) : bool :=
  match typeName (prim_data p) with
  | Some t => schema_is_a t s
  | None => false
  end.

(** [IsA] on a possibly invalid prim: an invalid prim is of no schema. *)
Definition IsA_opt (p : option UsdPrim) (s : Schema) : bool :=
  match p with
  | Some q => IsA q s
  | None => false
  end.

Inductive UsdInterpolationType := UsdInterpolationTypeHeld | UsdInterpolationTypeLinear.

Record UsdStage := mkStage {
  pseudo_root : PrimNode;
  interpolation : UsdInterpolationType
}.

Definition GetPseudoRoot (st : UsdStage) : UsdPrim * PrimNode :=
  (Prim (node_data (pseudo_root st)) None, pseudo_root st).

Definition SetInterpolationType (i : UsdInterpolationType) (st : UsdStage) : UsdStage :=
  {| pseudo_root := pseudo_root st; interpolation := i |}.

(** [UsdPrimDefaultPredicate], optionally wrapped in
    [UsdTraverseInstanceProxies]. *)
Definition UsdPrimDefaultPredicate (traverse_instance_proxies : bool) (d : PrimData) : bool :=
  is_active d && is_defined d && is_loaded d && negb (is_abstract d)
  && (traverse_instance_proxies || negb (is_instance_proxy d)).

(** Split a string at every ['/']: [split_path acc s] returns the components,
    [acc] being the part already read of the current component. *)
Fixpoint split_path (acc : string) (s : string) : list string :=
  match s with
  | EmptyString => [acc]
  | String c rest =>
      if Ascii.eqb c "/"%char then acc :: split_path "" rest
      else split_path (acc ++ String c "") rest
  end.

(** [SdfPath(str)]: the prim names from the root down, or [None] for a string
    that is not a prim path.  A relative path is anchored at the root, as
    [GetPrimAtPath] does. *)
Definition SdfPath (s : string) : option (list string) :=
  match split_path "" s with
  | [ "" ] => None
  | [ ""; "" ] => Some []
  | "" :: comps => if forallb (fun c => negb (String.eqb c "")) comps then Some comps else None
  | comps => if forallb (fun c => negb (String.eqb c "")) comps then Some comps else None
  end.

(** Walk down from [p] (whose subtree is [n]) along [path]. *)
Fixpoint prim_at (p : UsdPrim) (n : PrimNode) (path : list string) : option (UsdPrim * PrimNode) :=
  match path with
  | [] => Some (p, n)
  | x :: path' =>
      match List.find (fun c => String.eqb (name (node_data c)) x) (node_children n) with
      | Some c => prim_at (Prim (node_data c) (Some p)) c path'
      | None => None
      end
  end.

(** [stage->GetPrimAtPath(path)]; [None] is the invalid prim. *)
Definition GetPrimAtPath (st : UsdStage) (path : option (list string)) : option (UsdPrim * PrimNode) :=
  match path with
  | Some comps => prim_at (fst (GetPseudoRoot st)) (snd (GetPseudoRoot st)) comps
  | None => None
  end.

End Pxr.

(* ===================================================================== *)
(** ** namespace blender::io::usd                                         *)
(* ===================================================================== *)

Module Usd.
Import Pxr.

(** [USDImportParams], the fields this file reads. *)
Record USDImportParams := mkParams {
  import_cameras : bool;
  import_curves : bool;
  import_lights : bool;
  import_meshes : bool;
  import_volumes : bool;
  import_instance_proxies : bool;
  import_visible_only : bool;
  import_guide : bool;
  import_proxy : bool;
  import_render : bool;
  prim_path_mask : string
}.

(** The dynamic class of a reader.  The seven classes this file instantiates
    all derive from [USDXformReader]; [USDPrimReaderOther] stands for a
    [USDPrimReader] outside that family, on which
    [dynamic_cast<USDXformReader *>] yields null. *)
Inductive ReaderClass : Set :=
| USDCameraReader
| USDCurvesReader
| USDNurbsReader
| USDMeshReader
| USDLightReader
| USDVolumeReader
| USDXformReader
| USDPrimReaderOther.

#[global] Instance ReaderClass_eq_dec : EqDecision ReaderClass.
Proof. solve_decision. Defined.

(** Modelled from the spec: the reader class hierarchy of
    [usd_reader_*.h] (the "Xform-family" of readers): whether
    [dynamic_cast<USDXformReader *>] succeeds. *)
Definition is_xform_reader (c : ReaderClass) : bool :=
  match c with
  | USDPrimReaderOther => false
  | _ => true
  end.

(** A pointer to a reader: an index into the arena of readers. *)
Abbreviation ReaderPtr := nat.

(** A host object ([Object] in [Main]) as created by [create_object]. *)
Record Object := mkObject {
  ob_name : string;
  ob_class : ReaderClass;
  ob_time : Q
}.

(** Modelled from the spec: the members of [USDPrimReader] /
    [USDXformReader] (usd_reader_prim.h, usd_reader_xform.h) the adapter
    reads or writes: the wrapped prim, the non-owning parent reference, the
    reference count, the merge flag and the host object. *)
Record USDPrimReader := mkReader {
  reader_class : ReaderClass;
  prim_ : UsdPrim;
  parent_reader_ : option ReaderPtr;
  refcount_ : Z;
  use_parent_xform_ : bool;
  object_ : option nat
}.

(** Modelled from the spec: a reader's constructor; the count reaches 1 with
    the registration's [incref]. *)
Definition new_reader (c : ReaderClass) (prim : UsdPrim) : USDPrimReader :=
  {| reader_class := c; prim_ := prim; parent_reader_ := None;
     refcount_ := 0; use_parent_xform_ := false; object_ := None |}.

(** Modelled from the spec: [USDPrimReader::incref]. *)
Definition incref (r : USDPrimReader) : USDPrimReader :=
  {| reader_class := reader_class r; prim_ := prim_ r;
     parent_reader_ := parent_reader_ r; refcount_ := (refcount_ r + 1)%Z;
     use_parent_xform_ := use_parent_xform_ r; object_ := object_ r |}.

(** Modelled from the spec: [USDPrimReader::decref]. *)
Definition decref (r : USDPrimReader) : USDPrimReader :=
  {| reader_class := reader_class r; prim_ := prim_ r;
     parent_reader_ := parent_reader_ r; refcount_ := (refcount_ r - 1)%Z;
     use_parent_xform_ := use_parent_xform_ r; object_ := object_ r |}.

(** Modelled from the spec: the setter [USDPrimReader::parent]. *)
Definition set_parent (p : ReaderPtr) (r : USDPrimReader) : USDPrimReader :=
  {| reader_class := reader_class r; prim_ := prim_ r;
     parent_reader_ := Some p; refcount_ := refcount_ r;
     use_parent_xform_ := use_parent_xform_ r; object_ := object_ r |}.

(** Modelled from the spec: [USDXformReader::set_use_parent_xform]. *)
Definition set_use_parent_xform (b : bool) (r : USDPrimReader) : USDPrimReader :=
  {| reader_class := reader_class r; prim_ := prim_ r;
     parent_reader_ := parent_reader_ r; refcount_ := refcount_ r;
     use_parent_xform_ := b; object_ := object_ r |}.

(** Modelled from the spec: [USDXformReader::prim_has_xform_ops]: the prim
    carries authored transform operations. *)
Definition prim_has_xform_ops (r : USDPrimReader) : bool :=
  match xform_ops (prim_data (prim_ r)) with
  | [] => false
  | _ :: _ => true
  end.

(** Modelled from the spec: the effect of [create_object] on the reader. *)
Definition set_object (o : nat) (r : USDPrimReader) : USDPrimReader :=
  {| reader_class := reader_class r; prim_ := prim_ r;
     parent_reader_ := parent_reader_ r; refcount_ := refcount_ r;
     use_parent_xform_ := use_parent_xform_ r; object_ := Some o |}.

(** The memory the traversal works on: the registry [readers_] of the
    [USDStageReader], the arena of reader objects its pointers point into
    (a deleted reader is [None]) and the objects of the host document. *)
Record Store := mkStore {
  readers_ : list (option ReaderPtr);
  heap : list (option USDPrimReader);
  bmain : list Object
}.

(** The [USDStageReader] object with its memory and the [std::cerr] stream. *)
Record Adapter := mkAdapter {
  stage_ : option UsdStage;
  params_ : USDImportParams;
  store : Store;
  cerr : list string
}.

(** [USDStageReader::USDStageReader]. *)
Definition USDStageReader_new (stage : option UsdStage) (params : USDImportParams)
    (hp : list (option USDPrimReader)) (bm : list Object) : Adapter :=
  {| stage_ := stage; params_ := params;
     store := {| readers_ := []; heap := hp; bmain := bm |}; cerr := [] |}.

(** [USDStageReader::valid]. *)
Definition valid (a : Adapter) : bool :=
  match stage_ a with
  | Some _ => true
  | None => false
  end.

(** [USDStageReader::create_reader_if_allowed], the class of the reader it
    allocates ([None] for [nullptr]). *)
Definition create_reader_if_allowed (params : USDImportParams) (prim : UsdPrim) : option ReaderClass :=
  if import_cameras params && IsA prim UsdGeomCamera then Some USDCameraReader
  else if import_curves params && IsA prim UsdGeomBasisCurves then Some USDCurvesReader
  else if import_curves params && IsA prim UsdGeomNurbsCurves then Some USDNurbsReader
  else if import_meshes params && IsA prim UsdGeomMesh then Some USDMeshReader
  else if import_lights params && IsA prim UsdLuxLight then Some USDLightReader
  else if import_volumes params && IsA prim UsdVolVolume then Some USDVolumeReader
  else if IsA prim UsdGeomImageable then Some USDXformReader
  else None.

(** [USDStageReader::create_reader]. *)
Definition create_reader (prim : UsdPrim) : option ReaderClass :=
  if IsA prim UsdGeomCamera then Some USDCameraReader
  else if IsA prim UsdGeomBasisCurves then Some USDCurvesReader
  else if IsA prim UsdGeomNurbsCurves then Some USDNurbsReader
  else if IsA prim UsdGeomMesh then Some USDMeshReader
  else if IsA prim UsdLuxLight then Some USDLightReader
  else if IsA prim UsdVolVolume then Some USDVolumeReader
  else if IsA prim UsdGeomImageable then Some USDXformReader
  else None.

(** [USDStageReader::include_by_visibility]. *)
Definition include_by_visibility (params : USDImportParams) (imageable : UsdPrim) : bool :=
  if negb (import_visible_only params) then true
  else match visibility_attr (prim_data imageable) with
       | None => true
       | Some visibility_attr =>
           if ValueMightBeTimeVarying visibility_attr then true
           else negb (String.eqb (Get visibility_attr) UsdGeomTokens.invisible)
       end.

(** [USDStageReader::include_by_purpose]. *)
Definition include_by_purpose (params : USDImportParams) (imageable : UsdPrim) : bool :=
  if import_guide params && import_proxy params && import_render params then true
  else match purpose_attr (prim_data imageable) with
       | None => true
       | Some purpose_attr =>
           let purpose := Get purpose_attr in
           if String.eqb purpose UsdGeomTokens.guide then import_guide params
           else if String.eqb purpose UsdGeomTokens.proxy then import_proxy params
           else if String.eqb purpose UsdGeomTokens.render then import_render params
           else true
       end.

(** [merge_with_parent] on the reader object: the result and the reader as
    the call leaves it. *)
Definition merge_with_parent (reader : USDPrimReader) : bool * USDPrimReader :=
  if negb (is_xform_reader (reader_class reader)) then (false, reader)
  else if use_parent_xform_ reader then (false, reader)
  else if negb (IsA_opt (GetParent (prim_ reader)) UsdGeomXform) then (false, reader)
  else if IsA (prim_ reader) UsdGeomXform || IsA (prim_ reader) UsdGeomScope then (false, reader)
  else if prim_has_xform_ops reader then (false, reader)
  else (true, set_use_parent_xform true reader).

(** Store [r] in the cell [p] points to. *)
Definition write_reader (p : ReaderPtr) (r : USDPrimReader) (s : Store) : Store :=
  {| readers_ := readers_ s; heap := <[p := Some r]> (heap s); bmain := bmain s |}.

(** Apply a method that mutates the reader [p] points to.  Through a pointer
    to no live reader (undefined behaviour in C++) nothing is written. *)
Definition update_reader (f : USDPrimReader -> USDPrimReader) (p : ReaderPtr) (s : Store) : Store :=
  match heap s !! p with
  | Some (Some r) => write_reader p (f r) s
  | _ => s
  end.

(** [merge_with_parent(reader)] through the pointer.  A pointer to no live
    reader is answered with [false]. *)
Definition merge_with_parent_ptr (p : ReaderPtr) (s : Store) : bool * Store :=
  match heap s !! p with
  | Some (Some reader) =>
      let '(merged, reader') := merge_with_parent reader in
      (merged, write_reader p reader' s)
  | _ => (false, s)
  end.

(** [new USD...Reader(prim, params_, settings_)]: the pointer is the next
    free index. *)
Definition alloc_reader (c : ReaderClass) (prim : UsdPrim) (s : Store) : ReaderPtr * Store :=
  (length (heap s),
   {| readers_ := readers_ s; heap := heap s ++ [Some (new_reader c prim)]; bmain := bmain s |}).

(** Modelled from the spec: [reader->create_object(bmain, 0.0)] adds one
    object to the host document and records it in the reader. *)
Definition create_object (motionSampleTime : Q) (p : ReaderPtr) (s : Store) : Store :=
  match heap s !! p with
  | Some (Some reader) =>
      {| readers_ := readers_ s;
         heap := <[p := Some (set_object (length (bmain s)) reader)]> (heap s);
         bmain := bmain s ++ [ {| ob_name := name (prim_data (prim_ reader));
                                  ob_class := reader_class reader;
                                  ob_time := motionSampleTime |} ] |}
  | _ => s
  end.

(** [readers_.push_back(reader)]. *)
Definition push_back (p : ReaderPtr) (s : Store) : Store :=
  {| readers_ := readers_ s ++ [Some p]; heap := heap s; bmain := bmain s |}.

(** The loop "Set each child reader's parent". *)
Definition set_parents (child_readers : list ReaderPtr) (reader : ReaderPtr) (s : Store) : Store :=
  fold_left (fun s child_reader => update_reader (set_parent reader) child_reader s) child_readers s.

Section Children.

Variable collect : PrimNode -> Store -> option ReaderPtr * Store.
Variable filter_predicate : PrimData -> bool.

(** The loop over [prim.GetFilteredChildren(filter_predicate)] of
    [collect_readers(bmain, prim)]: the non-null readers in order. *)
Fixpoint collect_children (children : list PrimNode) (s : Store) : list ReaderPtr * Store :=
  match children with
  | [] => ([], s)
  | childPrim :: rest =>
      if filter_predicate (node_data childPrim) then
        let '(r, s1) := collect childPrim s in
        let '(rs, s2) := collect_children rest s1 in
        (match r with Some child_reader => child_reader :: rs | None => rs end, s2)
      else collect_children rest s
  end.

End Children.

(** The purpose and visibility tests at the head of
    [collect_readers(bmain, prim)]. *)
Definition passes_filters (params : USDImportParams) (prim : UsdPrim) : bool :=
  if IsA prim UsdGeomImageable then
    include_by_purpose params prim && include_by_visibility params prim
  else true.

(** The merge attempt of [collect_readers(bmain, prim)]: only with exactly
    one child reader. *)
Definition try_merge (child_readers : list ReaderPtr) (s : Store) : bool * Store :=
  match child_readers with
  | [child_reader] => merge_with_parent_ptr child_reader s
  | _ => (false, s)
  end.

(** [collect_readers(bmain, prim)] from the creation of the prim's own reader
    on (lines 260-276). *)
Definition create_and_register (params : USDImportParams) (prim : UsdPrim)
    (child_readers : list ReaderPtr) (s : Store) : option ReaderPtr * Store :=
  match create_reader_if_allowed params prim with
  | None => (None, s)
  | Some c =>
      let '(reader, s1) := alloc_reader c prim s in
      let s2 := create_object 0 reader s1 in
      let s3 := push_back reader s2 in
      let s4 := update_reader incref reader s3 in
      (Some reader, set_parents child_readers reader s4)
  end.

(** [collect_readers(bmain, prim)] after the loop over the children. *)
Definition after_children (params : USDImportParams) (prim : UsdPrim)
    (child_readers : list ReaderPtr) (s : Store) : option ReaderPtr * Store :=
  if IsPseudoRoot prim then (None, s)
  else
    let '(merged, s1) := try_merge child_readers s in
    if merged then (head child_readers, s1)
    else create_and_register params prim child_readers s1.

(** [USDStageReader::collect_readers(Main *bmain, const pxr::UsdPrim &prim)].
    [parent] is the handle of the parent of the prim at [node]. *)
Fixpoint collect_readers_prim (params : USDImportParams) (parent : option UsdPrim)
    (node : PrimNode) (s : Store) {struct node} : option ReaderPtr * Store :=
  match node with
  | Node d children =>
      let prim := Prim d parent in
      if negb (passes_filters params prim) then (None, s)
      else
        let '(child_readers, s1) :=
          collect_children (collect_readers_prim params (Some prim))
            (UsdPrimDefaultPredicate (import_instance_proxies params)) children s in
        after_children params prim child_readers s1
  end.

(** One step of the loop of [clear_readers]: a null entry is skipped;
    [delete] leaves the cell empty. *)
Definition clear_reader (s : Store) (reader : option ReaderPtr) : Store :=
  match reader with
  | None => s
  | Some p =>
      let s1 := update_reader decref p s in
      match heap s1 !! p with
      | Some (Some r) =>
          if (refcount_ r =? 0)%Z then
            {| readers_ := readers_ s1; heap := <[p := None]> (heap s1); bmain := bmain s1 |}
          else s1
      | _ => s1
      end
  end.

(** [USDStageReader::clear_readers]. *)
Definition clear_readers (s : Store) : Store :=
  let s1 := fold_left clear_reader (readers_ s) s in
  {| readers_ := []; heap := heap s1; bmain := bmain s1 |}.

Definition with_store (a : Adapter) (s : Store) : Adapter :=
  {| stage_ := stage_ a; params_ := params_ a; store := s; cerr := cerr a |}.

Definition warn (msg : string) (a : Adapter) : Adapter :=
  {| stage_ := stage_ a; params_ := params_ a; store := store a; cerr := cerr a ++ [msg] |}.

Definition mask_warning (prim_path_mask : string) : string :=
  "WARNING: Prim Path Mask " ++ prim_path_mask ++ " does not specify a valid prim." ++ String (Ascii.ascii_of_nat 10) "".

(** The root the top-level [collect_readers] starts from, with the warning
    it writes when the mask names no prim (lines 288-301). *)
Definition traversal_root (stage : UsdStage) (prim_path_mask : string)
    : (UsdPrim * PrimNode) * list string :=
  let root := GetPseudoRoot stage in
  if String.eqb prim_path_mask "" then (root, [])
  else match GetPrimAtPath stage (SdfPath prim_path_mask) with
       | Some prim => (prim, [])
       | None => (root, [mask_warning prim_path_mask])
       end.

(** [USDStageReader::collect_readers(Main *bmain)]. *)
Definition collect_readers (a : Adapter) : Adapter :=
  match stage_ a with
  | None => a
  | Some stage =>
      let s := clear_readers (store a) in
      let '((root, root_node), warnings) := traversal_root stage (prim_path_mask (params_ a)) in
      let stage' := SetInterpolationType UsdInterpolationTypeHeld stage in
      let '(_, s') := collect_readers_prim (params_ a) (GetParent root) root_node s in
      {| stage_ := Some stage'; params_ := params_ a; store := s'; cerr := cerr a ++ warnings |}
  end.

(** [USDStageReader::~USDStageReader]. *)
Definition USDStageReader_delete (a : Adapter) : Store := clear_readers (store a).

End Usd.

(* ===================================================================== *)
(** ** ED_keyframes_keylist.h                                             *)
(* ===================================================================== *)

Module Keylist.

(** [eKeyframeHandleDrawOpts]. *)
Inductive eKeyframeHandleDrawOpts : Set :=
| KEYFRAME_HANDLE_NONE
| KEYFRAME_HANDLE_AUTO_CLAMP
| KEYFRAME_HANDLE_AUTO
| KEYFRAME_HANDLE_VECTOR
| KEYFRAME_HANDLE_ALIGNED
| KEYFRAME_HANDLE_FREE.

(** The enumerators' values: the first is 0, each next one is one more. *)
Definition handle_value (h : eKeyframeHandleDrawOpts) : Z :=
  match h with
  | KEYFRAME_HANDLE_NONE => 0
  | KEYFRAME_HANDLE_AUTO_CLAMP => 1
  | KEYFRAME_HANDLE_AUTO => 2
  | KEYFRAME_HANDLE_VECTOR => 3
  | KEYFRAME_HANDLE_ALIGNED => 4
  | KEYFRAME_HANDLE_FREE => 5
  end.

(** [eKeyframeExtremeDrawOpts]. *)
Inductive eKeyframeExtremeDrawOpts : Set :=
| KEYFRAME_EXTREME_NONE
| KEYFRAME_EXTREME_MIN
| KEYFRAME_EXTREME_MAX
| KEYFRAME_EXTREME_MIXED
| KEYFRAME_EXTREME_FLAT.

Definition extreme_value (e : eKeyframeExtremeDrawOpts) : Z :=
  match e with
  | KEYFRAME_EXTREME_NONE => 0
  | KEYFRAME_EXTREME_MIN => Z.shiftl 1 0
  | KEYFRAME_EXTREME_MAX => Z.shiftl 1 1
  | KEYFRAME_EXTREME_MIXED => Z.shiftl 1 2
  | KEYFRAME_EXTREME_FLAT => Z.shiftl 1 3
  end.

(** [ActKeyBlockInfo]. *)
Record ActKeyBlockInfo := mkBlock {
  flag : Z;
  conflict : Z;
  block_sel : Z
}.

(** [ActKeyColumn] without its list and tree linkage: the container below is
    the time-ascending sequence the linkage realises.  [cfra] is a [float] in
    C; the model takes the rationals, which have no NaN and no rounding. *)
Record ActKeyColumn := mkColumn {
  key_type : Z;
  handle_type : Z;
  extreme_type : Z;
  sel : Z;
  cfra : Q;
  block : ActKeyBlockInfo;
  totcurve : Z;
  totkey : Z;
  totblock : Z
}.

(** Modelled from the spec: [AnimKeylist] (defined in keyframes_keylist.cc,
    of which only the declarations are at hand) is an ordered container of
    columns keyed by time, columns at equal time merged, iterated in
    ascending time. *)
Definition AnimKeylist := list ActKeyColumn.

(** Modelled from the spec: [ED_keylist_create] returns a new empty index. *)
Definition ED_keylist_create : AnimKeylist := [].

(** Modelled from the spec: one keyframe of one curve as the population
    operations meet it: its time and the key, handle and extreme categories
    and selection it contributes. *)
Record KeyInfo := mkKey {
  k_cfra : Q;
  k_key_type : Z;
  k_handle_type : eKeyframeHandleDrawOpts;
  k_extreme_type : Z;
  k_sel : Z
}.

Definition Qltb (a b : Q) : bool :=
  match (a ?= b)%Q with
  | Lt => true
  | _ => false
  end.

(** Modelled from the spec: a column created for the first keyframe met at
    its time. *)
Definition new_column (k : KeyInfo) : ActKeyColumn :=
  {| key_type := k_key_type k; handle_type := handle_value (k_handle_type k);
     extreme_type := k_extreme_type k; sel := k_sel k; cfra := k_cfra k;
     block := {| flag := 0; conflict := 0; block_sel := 0 |};
     totcurve := 0; totkey := 1; totblock := 0 |}.

(** Modelled from the spec: a further keyframe at the time of an existing
    column updates the aggregates in place: the handle category by priority
    (the higher enumerant wins), the extreme and selection bits by union,
    the key count by one. *)
Definition update_column (k : KeyInfo) (c : ActKeyColumn) : ActKeyColumn :=
  {| key_type := key_type c;
     handle_type := Z.max (handle_type c) (handle_value (k_handle_type k));
     extreme_type := Z.lor (extreme_type c) (k_extreme_type k);
     sel := Z.lor (sel c) (k_sel k); cfra := cfra c; block := block c;
     totcurve := totcurve c; totkey := totkey c + 1; totblock := totblock c |}.

(** Modelled from the spec: "locate or create the column at its time; ties
    merge in place". *)
Fixpoint add_key (k : KeyInfo) (keylist : AnimKeylist) : AnimKeylist :=
  match keylist with
  | [] => [new_column k]
  | c :: rest =>
      match (k_cfra k ?= cfra c)%Q with
      | Lt => new_column k :: c :: rest
      | Eq => update_column k c :: rest
      | Gt => c :: add_key k rest
      end
  end.

(** Modelled from the spec: a population call merges the keyframes of its
    source, in the order met, into the existing index. *)
Definition populate (keys : list KeyInfo) (keylist : AnimKeylist) : AnimKeylist :=
  fold_left (fun l k => add_key k l) keys keylist.

(** Modelled from the spec: [ED_keylist_find_exact]: the column at exactly
    [cfra], or none. *)
Definition ED_keylist_find_exact (keylist : AnimKeylist) (fra : Q) : option ActKeyColumn :=
  List.find (fun c => Qeq_bool (cfra c) fra) keylist.

(** Modelled from the spec: [ED_keylist_find_next]: the first column after
    [cfra] in ascending order. *)
Definition ED_keylist_find_next (keylist : AnimKeylist) (fra : Q) : option ActKeyColumn :=
  List.find (fun c => Qltb fra (cfra c)) keylist.

(** Modelled from the spec: [ED_keylist_find_prev]: the last column before
    [cfra] in ascending order. *)
Definition ED_keylist_find_prev (keylist : AnimKeylist) (fra : Q) : option ActKeyColumn :=
  List.find (fun c => Qltb (cfra c) fra) (rev keylist).

(** Modelled from the spec: [ED_keylist_find_any_between]: some column
    strictly inside the range. *)
Definition ED_keylist_find_any_between (keylist : AnimKeylist) (min_fra max_fra : Q)
    : option ActKeyColumn :=
  List.find (fun c => Qltb min_fra (cfra c) && Qltb (cfra c) max_fra) keylist.

(** Modelled from the spec: [ED_keylist_is_empty]. *)
Definition ED_keylist_is_empty (keylist : AnimKeylist) : bool :=
  match keylist with
  | [] => true
  | _ :: _ => false
  end.

(** The keyframes of [keys] that fall on time [t]. *)
Definition contributions (t : Q) (keys : list KeyInfo) : list KeyInfo :=
  List.filter (fun k => Qeq_bool (k_cfra k) t) keys.

(** The highest handle value among keyframes (0, the value of
    [KEYFRAME_HANDLE_NONE], for none). *)
Definition max_handle (keys : list KeyInfo) : Z :=
  fold_right (fun k m => Z.max (handle_value (k_handle_type k)) m) 0%Z keys.

(** Strictly ascending times: every column is before all later ones. *)
Fixpoint ascending (keylist : AnimKeylist) : Prop :=
  match keylist with
  | [] => True
  | c :: rest => Forall (fun c' => (cfra c < cfra c')%Q) rest /\ ascending rest
  end.

(** A keyframe with only its time and handle category set. *)
Definition key_at (t : Q) (h : eKeyframeHandleDrawOpts) : KeyInfo :=
  {| k_cfra := t; k_key_type := 0; k_handle_type := h; k_extreme_type := 0; k_sel := 0 |}.

(** The index of the query scenario: columns at 1.0, 5.0 and 10.0, inserted
    out of order. *)
Definition scenario_index : AnimKeylist :=
  populate [key_at 5 KEYFRAME_HANDLE_NONE; key_at 10 KEYFRAME_HANDLE_NONE;
            key_at 1 KEYFRAME_HANDLE_NONE] ED_keylist_create.

End Keylist.

(* ===================================================================== *)
(** ** Notions the statements about the traversal use, and test stages    *)
(* ===================================================================== *)

Module UsdScenes.
Import Pxr Usd.

(** The merge conditions of [merge_with_parent], as one boolean. *)
Definition merge_conditions (reader : USDPrimReader) : bool :=
  is_xform_reader (reader_class reader)
  && negb (use_parent_xform_ reader)
  && IsA_opt (GetParent (prim_ reader)) UsdGeomXform
  && negb (IsA (prim_ reader) UsdGeomXform)
  && negb (IsA (prim_ reader) UsdGeomScope)
  && negb (prim_has_xform_ops reader).

(** The store after a successful merge into the reader at [c]. *)
Definition merged_store (c : ReaderPtr) (s : Store) : Store :=
  update_reader (set_use_parent_xform true) c s.

(** The store after the prim's own reader of class [k] was created at the
    next free pointer, its object created, the reader registered and counted,
    and the child readers [cs] parented under it. *)
Definition registered_store (k : ReaderClass) (prim : UsdPrim) (cs : list ReaderPtr)
    (s : Store) : Store :=
  let reader := length (heap s) in
  set_parents cs reader
    {| readers_ := readers_ s ++ [Some reader];
       heap := heap s ++ [Some {| reader_class := k; prim_ := prim; parent_reader_ := None;
                                  refcount_ := 1; use_parent_xform_ := false;
                                  object_ := Some (length (bmain s)) |}];
       bmain := bmain s ++ [ {| ob_name := name (prim_data prim); ob_class := k;
                                ob_time := 0 |} ] |}.

(** The prim at [prim] yields no reader although its children did: it is not
    the pseudo-root, no merge took place and no reader class applies. *)
Definition drops_children (params : USDImportParams) (prim : UsdPrim)
    (child_readers : list ReaderPtr) (s : Store) : bool :=
  negb (IsPseudoRoot prim)
  && negb (fst (try_merge child_readers s))
  && match create_reader_if_allowed params prim with
     | None => true
     | Some _ => false
     end.

Section DiscardedChildren.

Variable collect : PrimNode -> Store -> option ReaderPtr * Store.
Variable discarded_in : PrimNode -> Store -> list ReaderPtr.
Variable filter_predicate : PrimData -> bool.

(** The readers discarded below the children of a prim, child by child, each
    from the store its traversal starts in. *)
Fixpoint discarded_children (children : list PrimNode) (s : Store) : list ReaderPtr :=
  match children with
  | [] => []
  | childPrim :: rest =>
      if filter_predicate (node_data childPrim) then
        discarded_in childPrim s ++ discarded_children rest (snd (collect childPrim s))
      else discarded_children rest s
  end.

End DiscardedChildren.

(** The child readers that the traversal of [node] from store [s] discards:
    those collected at a prim of the subtree that then yields no reader. *)
Fixpoint discarded (params : USDImportParams) (parent : option UsdPrim)
    (node : PrimNode) (s : Store) {struct node} : list ReaderPtr :=
  match node with
  | Node d children =>
      let prim := Prim d parent in
      if negb (passes_filters params prim) then []
      else
        let filter_predicate := UsdPrimDefaultPredicate (import_instance_proxies params) in
        let below :=
          discarded_children (collect_readers_prim params (Some prim))
            (discarded params (Some prim)) filter_predicate children s in
        let '(child_readers, s1) :=
          collect_children (collect_readers_prim params (Some prim))
            filter_predicate children s in
        below ++ (if drops_children params prim child_readers s1 then child_readers else [])
  end.

(** The reader at [h] is live, registered, has its host object and no
    parent. *)
Definition registered_orphan (s : Store) (h : ReaderPtr) : Prop :=
  exists r, heap s !! h = Some (Some r)
            /\ parent_reader_ r = None
            /\ is_Some (object_ r)
            /\ Some h ∈ readers_ s.

(** Every registered pointer of [s] points to a deleted reader. *)
Definition all_deallocated (registered : list (option ReaderPtr)) (s : Store) : Prop :=
  forall h, Some h ∈ registered -> heap s !! h = Some None.

(** *** What one traversal call guarantees *)

(** The readers that existed before are as they were. *)
Definition frame (s s' : Store) : Prop :=
  length (heap s) <= length (heap s')
  /\ forall h, h < length (heap s) -> heap s' !! h = heap s !! h.

(** The pointer was allocated between [s] and [s']. *)
Definition fresh (s s' : Store) (h : ReaderPtr) : Prop :=
  length (heap s) <= h < length (heap s').

(** The reader at [h] is live, holds exactly the registry's reference and
    has its host object. *)
Definition counted_once (s : Store) (h : ReaderPtr) : Prop :=
  exists r, heap s !! h = Some (Some r)
            /\ refcount_ r = 1%Z
            /\ is_Some (object_ r).

(** Only the readers at [touched] were written, and no write changed a
    reference count or a host object. *)
Definition touch (touched : list ReaderPtr) (s s' : Store) : Prop :=
  readers_ s' = readers_ s
  /\ length (heap s') = length (heap s)
  /\ (forall h, h ∉ touched -> heap s' !! h = heap s !! h)
  /\ (forall h r, heap s !! h = Some (Some r) ->
      exists r', heap s' !! h = Some (Some r')
                 /\ refcount_ r' = refcount_ r
                 /\ object_ r' = object_ r).

(** The state [s'] a traversal started in [s] ends in, [returned] being the
    readers handed upward and [discards] the discarded ones: old readers are
    untouched; the registry grew by distinct fresh readers, each counted
    once; a returned reader is a fresh registered orphan; so is a discarded
    one, and it is not returned. *)
Definition traversal_post (s : Store) (returned discards : list ReaderPtr) (s' : Store) : Prop :=
  frame s s'
  /\ (exists regs, readers_ s' = (readers_ s ++ regs)%list
                   /\ NoDup regs
                   /\ forall x, x ∈ regs ->
                        exists h, x = Some h /\ fresh s s' h /\ counted_once s' h)
  /\ NoDup returned
  /\ (forall h, h ∈ returned -> fresh s s' h /\ registered_orphan s' h)
  /\ (forall h, h ∈ discards ->
        (h ∉ returned) /\ fresh s s' h /\ registered_orphan s' h).

Definition with_params (a : Adapter) (params : USDImportParams) : Adapter :=
  {| stage_ := stage_ a; params_ := params; store := store a; cerr := cerr a |}.

(** The failure clause of the merge decision read for every prim: whenever
    exactly one child reader was collected and the merge does not take place,
    the prim gets a reader of its own and the child is parented under it. *)
Definition failed_merge_always_parents : Prop :=
  forall params parent d children s c s1,
    passes_filters params (Prim d parent) = true ->
    collect_children (collect_readers_prim params (Some (Prim d parent)))
      (UsdPrimDefaultPredicate (import_instance_proxies params)) children s = ([c], s1) ->
    fst (try_merge [c] s1) = false ->
    exists p s' r,
      collect_readers_prim params parent (Node d children) s = (Some p, s')
      /\ heap s' !! c = Some (Some r)
      /\ parent_reader_ r = Some p.

(** The adapters the class can be in: built by the constructor (on a valid
    or an invalid stage handle), then used through [collect_readers] and
    [clear_readers]; code outside the class may write the reader objects,
    the host document and the log in between, but not the members [stage_],
    [params_] and [readers_]. *)
Inductive reachable : Adapter -> Prop :=
| reach_new stage params hp bm :
    reachable (USDStageReader_new stage params hp bm)
| reach_collect a :
    reachable a -> reachable (collect_readers a)
| reach_clear a :
    reachable a -> reachable (with_store a (clear_readers (store a)))
| reach_outside a hp bm log :
    reachable a ->
    reachable {| stage_ := stage_ a; params_ := params_ a;
                 store := {| readers_ := readers_ (store a); heap := hp; bmain := bm |};
                 cerr := log |}.

(** The reader selection read for every prim the traversal reaches: whenever
    [create_reader_if_allowed] selects a class for a prim other than the
    pseudo-root, the traversal of the prim registers a reader of that class
    on the prim. *)
Definition every_reached_prim_gets_selected_reader : Prop :=
  forall params parent d children s k,
    IsPseudoRoot (Prim d parent) = false ->
    create_reader_if_allowed params (Prim d parent) = Some k ->
    exists h r,
      Some h ∈ readers_ (snd (collect_readers_prim params parent (Node d children) s))
      /\ heap (snd (collect_readers_prim params parent (Node d children) s)) !! h
         = Some (Some r)
      /\ prim_ r = Prim d parent
      /\ reader_class r = k.

(** A successful merge read as retaining the reader: one more reference. *)
Definition merge_retains_reader : Prop :=
  forall r r', merge_with_parent r = (true, r') -> refcount_ r' = (refcount_ r + 1)%Z.

(** *** Test stages *)

Definition all_params : USDImportParams :=
  {| import_cameras := true; import_curves := true; import_lights := true;
     import_meshes := true; import_volumes := true; import_instance_proxies := true;
     import_visible_only := true; import_guide := true; import_proxy := true;
     import_render := true; prim_path_mask := "" |}.

Definition with_mask (params : USDImportParams) (mask : string) : USDImportParams :=
  {| import_cameras := import_cameras params; import_curves := import_curves params;
     import_lights := import_lights params; import_meshes := import_meshes params;
     import_volumes := import_volumes params;
     import_instance_proxies := import_instance_proxies params;
     import_visible_only := import_visible_only params;
     import_guide := import_guide params; import_proxy := import_proxy params;
     import_render := import_render params; prim_path_mask := mask |}.

Definition no_guide_params : USDImportParams :=
  {| import_cameras := true; import_curves := true; import_lights := true;
     import_meshes := true; import_volumes := true; import_instance_proxies := true;
     import_visible_only := true; import_guide := false; import_proxy := true;
     import_render := true; prim_path_mask := "" |}.

(** A defined, active, loaded prim of the given name and type without
    authored attributes. *)
Definition plain_prim (nm : string) (ty : option Schema) : PrimData :=
  {| name := nm; typeName := ty; is_active := true; is_loaded := true;
     is_defined := true; is_abstract := false; is_instance_proxy := false;
     visibility_attr := None; purpose_attr := None; xform_ops := [] |}.

Definition with_xform_ops (d : PrimData) (ops : list string) : PrimData :=
  {| name := name d; typeName := typeName d; is_active := is_active d;
     is_loaded := is_loaded d; is_defined := is_defined d; is_abstract := is_abstract d;
     is_instance_proxy := is_instance_proxy d; visibility_attr := visibility_attr d;
     purpose_attr := purpose_attr d; xform_ops := ops |}.

Definition with_visibility (d : PrimData) (a : UsdAttribute) : PrimData :=
  {| name := name d; typeName := typeName d; is_active := is_active d;
     is_loaded := is_loaded d; is_defined := is_defined d; is_abstract := is_abstract d;
     is_instance_proxy := is_instance_proxy d; visibility_attr := Some a;
     purpose_attr := purpose_attr d; xform_ops := xform_ops d |}.

Definition with_purpose (d : PrimData) (a : UsdAttribute) : PrimData :=
  {| name := name d; typeName := typeName d; is_active := is_active d;
     is_loaded := is_loaded d; is_defined := is_defined d; is_abstract := is_abstract d;
     is_instance_proxy := is_instance_proxy d; visibility_attr := visibility_attr d;
     purpose_attr := Some a; xform_ops := xform_ops d |}.

Definition static_attr (v : TfToken) : UsdAttribute :=
  {| ValueMightBeTimeVarying := false; attr_value := Some v |}.

Definition root_data : PrimData := plain_prim "" None.
Definition xform_data : PrimData := plain_prim "xf" (Some UsdGeomXform).
Definition mesh_data : PrimData := plain_prim "mesh" (Some UsdGeomMesh).
Definition group_data : PrimData := plain_prim "grp" None.

Definition empty_store : Store := {| readers_ := []; heap := []; bmain := [] |}.

(** /xf (Xform) with the single child /xf/mesh (Mesh, no transform ops). *)
Definition xform_mesh_tree : PrimNode :=
  Node root_data [Node xform_data [Node mesh_data []]].

(** The same with an authored transform operation on the mesh. *)
Definition xform_mesh_ops_tree : PrimNode :=
  Node root_data [Node xform_data [Node (with_xform_ops mesh_data ["xformOp:translate"]) []]].

(** /grp (an untyped prim) with the single child /grp/mesh (Mesh). *)
Definition group_mesh_tree : PrimNode :=
  Node root_data [Node group_data [Node mesh_data []]].

(** /top (Xform) over /top/grp (untyped) over /top/grp/mesh (Mesh). *)
Definition nested_group_tree : PrimNode :=
  Node root_data
    [Node (plain_prim "top" (Some UsdGeomXform)) [Node group_data [Node mesh_data []]]].

Definition stage_of (tree : PrimNode) : UsdStage :=
  {| pseudo_root := tree; interpolation := UsdInterpolationTypeLinear |}.

Definition adapter_of (tree : PrimNode) (params : USDImportParams) : Adapter :=
  USDStageReader_new (Some (stage_of tree)) params [] [].

(** The reader of the mesh of [xform_mesh_tree] as the traversal registers
    it, before the merge attempt at /xf. *)
Definition mesh_reader : USDPrimReader :=
  {| reader_class := USDMeshReader;
     prim_ := Prim mesh_data (Some (Prim xform_data (Some (Prim root_data None))));
     parent_reader_ := None; refcount_ := 1; use_parent_xform_ := false;
     object_ := Some 0 |}.

(** The store once the mesh of [xform_mesh_tree] was traversed. *)
Definition mesh_store : Store :=
  {| readers_ := [Some 0]; heap := [Some mesh_reader];
     bmain := [ {| ob_name := "mesh"; ob_class := USDMeshReader; ob_time := 0 |} ] |}.

(** The store once the mesh of [nested_group_tree] was traversed. *)
Definition mesh_store_under_top : Store :=
  {| readers_ := [Some 0];
     heap := [Some {| reader_class := USDMeshReader;
                      prim_ := Prim mesh_data
                                 (Some (Prim group_data
                                    (Some (Prim (plain_prim "top" (Some UsdGeomXform))
                                       (Some (Prim root_data None))))));
                      parent_reader_ := None; refcount_ := 1;
                      use_parent_xform_ := false; object_ := Some 0 |}];
     bmain := [ {| ob_name := "mesh"; ob_class := USDMeshReader; ob_time := 0 |} ] |}.

(** An adapter constructed without a stage, beside a reader object some
    other code holds, after one [collect_readers] and one [clear_readers]. *)
Definition used_invalid_adapter : Adapter :=
  with_store (collect_readers (USDStageReader_new None all_params [Some mesh_reader] []))
    (clear_readers
       (store (collect_readers (USDStageReader_new None all_params [Some mesh_reader] [])))).

End UsdScenes.

(* ===================================================================== *)
(** ** Further notions on the traversal's result and on the flag enums    *)
(* ===================================================================== *)

Module UsdNotions.
Import Pxr Usd UsdScenes.

(** The prim in whose place of the hierarchy a reader stands: its own prim,
    or that prim's parent once the reader uses its parent's transform. *)
Definition anchor (r : USDPrimReader) : option UsdPrim :=
  if use_parent_xform_ r then GetParent (prim_ r) else Some (prim_ r).

(** The parent of that place. *)
Definition anchor_parent (r : USDPrimReader) : option UsdPrim :=
  match anchor r with
  | Some a => GetParent a
  | None => None
  end.

(** The host object [create_object(bmain, 0.0)] makes for a reader. *)
Definition host_object (r : USDPrimReader) : Object :=
  {| ob_name := name (prim_data (prim_ r)); ob_class := reader_class r; ob_time := 0 |}.

(** [s'] has as many more readers, registry entries and host objects than
    [s] as there are objects in [obs], the objects being appended and all
    created at time 0. *)
Definition grows_by (s s' : Store) : Prop :=
  exists obs,
    length (heap s') = length (heap s) + length obs
    /\ length (readers_ s') = length (readers_ s) + length obs
    /\ bmain s' = (bmain s ++ obs)%list
    /\ Forall (fun o => ob_time o = 0%Q) obs.

(** A reader as the traversal registers it: of the class
    [create_reader_if_allowed] selects for its prim, on a prim that passed
    the filters and is not the pseudo-root, with its host object in the
    document. *)
Definition reader_ok (params : USDImportParams) (bm : list Object) (r : USDPrimReader) : Prop :=
  create_reader_if_allowed params (prim_ r) = Some (reader_class r)
  /\ passes_filters params (prim_ r) = true
  /\ IsPseudoRoot (prim_ r) = false
  /\ exists o, object_ r = Some o /\ bm !! o = Some (host_object r).

(** Every registered reader is live and as the traversal registers it, and
    no two registered readers share a host object. *)
Definition well_registered (params : USDImportParams) (s : Store) : Prop :=
  (forall h, Some h ∈ readers_ s ->
     exists r, heap s !! h = Some (Some r) /\ reader_ok params (bmain s) r)
  /\ (forall h1 h2 r1 r2,
        Some h1 ∈ readers_ s -> Some h2 ∈ readers_ s ->
        heap s !! h1 = Some (Some r1) -> heap s !! h2 = Some (Some r2) ->
        object_ r1 = object_ r2 -> h1 = h2).

(** What [merge_with_parent] checked on a reader it flagged. *)
Definition merged_ok (r : USDPrimReader) : Prop :=
  is_xform_reader (reader_class r) = true
  /\ IsA_opt (GetParent (prim_ r)) UsdGeomXform = true
  /\ IsA (prim_ r) UsdGeomXform = false
  /\ IsA (prim_ r) UsdGeomScope = false
  /\ prim_has_xform_ops r = false.

(** The reader [r] at [h] sits well in the hierarchy of [s]: if flagged, it
    met the merge conditions; if it has a parent, the parent is a registered
    live reader allocated after it, wrapping the parent prim of the place
    [r] stands in. *)
Definition hier_ok (s : Store) (h : ReaderPtr) (r : USDPrimReader) : Prop :=
  (use_parent_xform_ r = true -> merged_ok r)
  /\ forall p, parent_reader_ r = Some p ->
       h < p
       /\ Some p ∈ readers_ s
       /\ exists rp, heap s !! p = Some (Some rp) /\ anchor_parent r = Some (prim_ rp).

(** The hierarchy built between [s] and [s']: the readers handed upward
    stand in the place of a child of [ctx], and every reader allocated in
    between sits well. *)
Definition hier_post (ctx : option UsdPrim) (s : Store) (returned : list ReaderPtr)
    (s' : Store) : Prop :=
  (forall h, h ∈ returned ->
     exists r a, heap s' !! h = Some (Some r) /\ anchor r = Some a /\ GetParent a = ctx)
  /\ (forall h r, fresh s s' h -> heap s' !! h = Some (Some r) -> hier_ok s' h r).


(** [params'] imports at least the purposes [params] imports and is no
    stricter on visibility. *)
Definition admits_more (params params' : USDImportParams) : Prop :=
  (import_guide params = true -> import_guide params' = true)
  /\ (import_proxy params = true -> import_proxy params' = true)
  /\ (import_render params = true -> import_render params' = true)
  /\ (import_visible_only params' = true -> import_visible_only params = true).

(** An inactive mesh prim /b. *)
Definition inactive_mesh : PrimNode :=
  Node {| name := "b"; typeName := Some UsdGeomMesh; is_active := false;
          is_loaded := true; is_defined := true; is_abstract := false;
          is_instance_proxy := false; visibility_attr := None;
          purpose_attr := None; xform_ops := [] |} [].

(** /a (Mesh) and the inactive /b below the pseudo-root. *)
Definition inactive_sibling_tree : PrimNode :=
  Node root_data [Node (plain_prim "a" (Some UsdGeomMesh)) []; inactive_mesh].

(** Two mesh prims, the children of an Xform in the wiring example. *)
Definition two_meshes : list PrimNode :=
  [Node (plain_prim "a" (Some UsdGeomMesh)) []; Node (plain_prim "b" (Some UsdGeomMesh)) []].

(** Options that do not traverse instance proxies. *)
Definition no_proxy_params : USDImportParams :=
  {| import_cameras := true; import_curves := true; import_lights := true;
     import_meshes := true; import_volumes := true; import_instance_proxies := false;
     import_visible_only := true; import_guide := true; import_proxy := true;
     import_render := true; prim_path_mask := "" |}.

(** A mesh prim /p that is an instance proxy. *)
Definition proxy_mesh : PrimNode :=
  Node {| name := "p"; typeName := Some UsdGeomMesh; is_active := true;
          is_loaded := true; is_defined := true; is_abstract := false;
          is_instance_proxy := true; visibility_attr := None;
          purpose_attr := None; xform_ops := [] |} [].

End UsdNotions.

Module KeylistFlags.
Import Keylist.

(** [eActKeyBlock_Hold] (typedef'd [eActKeyBlock_Flag]). *)
Inductive eActKeyBlock_Flag : Set :=
| ACTKEYBLOCK_FLAG_MOVING_HOLD
| ACTKEYBLOCK_FLAG_STATIC_HOLD
| ACTKEYBLOCK_FLAG_ANY_HOLD
| ACTKEYBLOCK_FLAG_NON_BEZIER
| ACTKEYBLOCK_FLAG_GPENCIL.

Definition block_flag_value (f : eActKeyBlock_Flag) : Z :=
  match f with
  | ACTKEYBLOCK_FLAG_MOVING_HOLD => Z.shiftl 1 0
  | ACTKEYBLOCK_FLAG_STATIC_HOLD => Z.shiftl 1 1
  | ACTKEYBLOCK_FLAG_ANY_HOLD => Z.shiftl 1 2
  | ACTKEYBLOCK_FLAG_NON_BEZIER => Z.shiftl 1 3
  | ACTKEYBLOCK_FLAG_GPENCIL => Z.shiftl 1 4
  end.

(** [eKeyframeShapeDrawOpts]. *)
Inductive eKeyframeShapeDrawOpts : Set :=
| KEYFRAME_SHAPE_FRAME
| KEYFRAME_SHAPE_INSIDE
| KEYFRAME_SHAPE_BOTH.

Definition shape_value (o : eKeyframeShapeDrawOpts) : Z :=
  match o with
  | KEYFRAME_SHAPE_FRAME => 0
  | KEYFRAME_SHAPE_INSIDE => 1
  | KEYFRAME_SHAPE_BOTH => 2
  end.

(** The "combination of flags from all curves" of [ActKeyBlockInfo.flag]:
    the bitwise or of the flags' values. *)
Definition combine_block_flags (flags : list eActKeyBlock_Flag) : Z :=
  fold_right (fun f m => Z.lor (block_flag_value f) m) 0%Z flags.

(** The test [mask & FLAG] as a truth value. *)
Definition has_block_flag (mask : Z) (f : eActKeyBlock_Flag) : bool :=
  negb (Z.land mask (block_flag_value f) =? 0)%Z.

(** The same for the extreme bits of [ActKeyColumn.extreme_type]. *)
Definition combine_extremes (flags : list eKeyframeExtremeDrawOpts) : Z :=
  fold_right (fun f m => Z.lor (extreme_value f) m) 0%Z flags.

Definition has_extreme (mask : Z) (f : eKeyframeExtremeDrawOpts) : bool :=
  negb (Z.land mask (extreme_value f) =? 0)%Z.

(** The values a [short] and a (signed) [char] hold. *)
Definition fits_short (z : Z) : Prop := (- 32768 <= z <= 32767)%Z.
Definition fits_char (z : Z) : Prop := (- 128 <= z <= 127)%Z.

End KeylistFlags.

(* ===================================================================== *)
(** ** Properties of the stage reader                                     *)
(* ===================================================================== *)

Module UsdProofs.
Import Pxr Usd UsdScenes.
Local Open Scope list_scope.

(** *** Filters *)

Lemma filtered_prim_is_skipped params parent d children s :
  passes_filters params (Prim d parent) = false ->
  collect_readers_prim params parent (Node d children) s = (None, s).
Proof.
  intros H. simpl. rewrite H. reflexivity.
Qed.

(** C3: the visibility filter admits every prim when "visible only" is off;
    when it is on, it admits a prim without visibility attribute and a prim
    whose visibility might be time-varying, and otherwise admits the prim
    exactly when its static visibility is not the "invisible" token.  An
    imageable prim the filter rejects yields no reader and the traversal
    leaves the store as it was: nothing below the prim is visited. *)
Theorem visibility_filter params prim :
  (import_visible_only params = false -> include_by_visibility params prim = true)
  /\ (import_visible_only params = true ->
      visibility_attr (prim_data prim) = None ->
      include_by_visibility params prim = true)
  /\ (forall a, import_visible_only params = true ->
      visibility_attr (prim_data prim) = Some a ->
      ValueMightBeTimeVarying a = true ->
      include_by_visibility params prim = true)
  /\ (forall a, import_visible_only params = true ->
      visibility_attr (prim_data prim) = Some a ->
      ValueMightBeTimeVarying a = false ->
      (include_by_visibility params prim = true <-> Get a <> UsdGeomTokens.invisible))
  /\ (forall children s,
      IsA prim UsdGeomImageable = true ->
      include_by_visibility params prim = false ->
      collect_readers_prim params (GetParent prim) (Node (prim_data prim) children) s
      = (None, s)).
Proof.
  unfold include_by_visibility.
  split; [|split; [|split; [|split]]].
  - intros ->. reflexivity.
  - intros -> ->. reflexivity.
  - intros a -> -> ->. reflexivity.
  - intros a -> -> ->. simpl.
    destruct (String.eqb_spec (Get a) UsdGeomTokens.invisible); simpl;
      split; congruence.
  - intros children s Him Hvis. destruct prim as [d parent]. simpl GetParent.
    simpl prim_data.
    apply filtered_prim_is_skipped. unfold passes_filters.
    rewrite Him. unfold include_by_visibility. rewrite Hvis.
    apply andb_false_r.
Qed.

Lemma visibility_filter_witness :
  include_by_visibility all_params
    (Prim (with_visibility mesh_data (static_attr UsdGeomTokens.invisible))
       (Some (Prim root_data None))) = false
  /\ collect_readers_prim all_params (Some (Prim root_data None))
       (Node (with_visibility mesh_data (static_attr UsdGeomTokens.invisible))
          [Node mesh_data []]) empty_store
     = (None, empty_store).
Proof.
  destruct (visibility_filter all_params
              (Prim (with_visibility mesh_data (static_attr UsdGeomTokens.invisible))
                 (Some (Prim root_data None))))
    as (_ & _ & _ & Hstatic & Hskip).
  specialize (Hstatic (static_attr UsdGeomTokens.invisible) eq_refl eq_refl eq_refl).
  assert (E : include_by_visibility all_params
                (Prim (with_visibility mesh_data (static_attr UsdGeomTokens.invisible))
                   (Some (Prim root_data None))) = false).
  { destruct (include_by_visibility all_params _); [|reflexivity].
    exfalso. apply (proj1 Hstatic eq_refl). reflexivity. }
  split; [exact E|].
  exact (Hskip [Node mesh_data []] empty_store eq_refl E).
Defined.

(** C4: the purpose filter admits every prim when guide, proxy and render
    are all enabled, admits a prim without purpose attribute, admits a prim
    whose purpose is the guide, proxy or render token exactly when the
    matching option is enabled, and admits a prim of any other purpose. *)
Theorem purpose_filter params prim :
  (import_guide params = true -> import_proxy params = true ->
   import_render params = true -> include_by_purpose params prim = true)
  /\ (purpose_attr (prim_data prim) = None -> include_by_purpose params prim = true)
  /\ (forall a, purpose_attr (prim_data prim) = Some a ->
      Get a = UsdGeomTokens.guide ->
      include_by_purpose params prim = import_guide params)
  /\ (forall a, purpose_attr (prim_data prim) = Some a ->
      Get a = UsdGeomTokens.proxy ->
      include_by_purpose params prim = import_proxy params)
  /\ (forall a, purpose_attr (prim_data prim) = Some a ->
      Get a = UsdGeomTokens.render ->
      include_by_purpose params prim = import_render params)
  /\ (forall a, purpose_attr (prim_data prim) = Some a ->
      Get a <> UsdGeomTokens.guide -> Get a <> UsdGeomTokens.proxy ->
      Get a <> UsdGeomTokens.render ->
      include_by_purpose params prim = true).
Proof.
  unfold include_by_purpose.
  split; [|split; [|split; [|split; [|split]]]].
  - intros -> -> ->. reflexivity.
  - intros ->. destruct (_ && _); reflexivity.
  - intros a -> ->. simpl.
    destruct (import_guide params), (import_proxy params), (import_render params);
      reflexivity.
  - intros a -> ->. simpl.
    destruct (import_guide params), (import_proxy params), (import_render params);
      reflexivity.
  - intros a -> ->. simpl.
    destruct (import_guide params), (import_proxy params), (import_render params);
      reflexivity.
  - intros a -> Hg Hp Hr. simpl.
    apply String.eqb_neq in Hg, Hp, Hr. rewrite Hg, Hp, Hr.
    destruct (_ && _); reflexivity.
Qed.

Lemma purpose_filter_witness :
  include_by_purpose no_guide_params
    (Prim (with_purpose mesh_data (static_attr UsdGeomTokens.guide)) None) = false
  /\ include_by_purpose no_guide_params
    (Prim (with_purpose mesh_data (static_attr UsdGeomTokens.render)) None) = true
  /\ include_by_purpose no_guide_params (Prim mesh_data None) = true.
Proof.
  split; [|split].
  - exact (proj1 (proj2 (proj2
      (purpose_filter no_guide_params
         (Prim (with_purpose mesh_data (static_attr UsdGeomTokens.guide)) None))))
      (static_attr UsdGeomTokens.guide) eq_refl eq_refl).
  - exact (proj1 (proj2 (proj2 (proj2 (proj2
      (purpose_filter no_guide_params
         (Prim (with_purpose mesh_data (static_attr UsdGeomTokens.render)) None))))))
      (static_attr UsdGeomTokens.render) eq_refl eq_refl).
  - exact (proj1 (proj2 (purpose_filter no_guide_params (Prim mesh_data None))) eq_refl).
Defined.

(** *** The schema hierarchy *)

(** The schema classes the selection tests exclude one another, and each
    derives from the imageable class. *)
Lemma category_disjoint prim :
  (IsA prim UsdGeomCamera = true ->
   IsA prim UsdGeomBasisCurves = false /\ IsA prim UsdGeomNurbsCurves = false
   /\ IsA prim UsdGeomMesh = false /\ IsA prim UsdLuxLight = false
   /\ IsA prim UsdVolVolume = false /\ IsA prim UsdGeomImageable = true)
  /\ (IsA prim UsdGeomBasisCurves = true ->
      IsA prim UsdGeomNurbsCurves = false
      /\ IsA prim UsdGeomMesh = false /\ IsA prim UsdLuxLight = false
      /\ IsA prim UsdVolVolume = false /\ IsA prim UsdGeomImageable = true)
  /\ (IsA prim UsdGeomNurbsCurves = true ->
      IsA prim UsdGeomMesh = false /\ IsA prim UsdLuxLight = false
      /\ IsA prim UsdVolVolume = false /\ IsA prim UsdGeomImageable = true)
  /\ (IsA prim UsdGeomMesh = true ->
      IsA prim UsdLuxLight = false
      /\ IsA prim UsdVolVolume = false /\ IsA prim UsdGeomImageable = true)
  /\ (IsA prim UsdLuxLight = true ->
      IsA prim UsdVolVolume = false /\ IsA prim UsdGeomImageable = true)
  /\ (IsA prim UsdVolVolume = true -> IsA prim UsdGeomImageable = true).
Proof.
  unfold IsA. destruct (typeName (prim_data prim)) as [t|].
  - destruct t; vm_compute; intuition congruence.
  - intuition congruence.
Qed.

(** *** The top-level entry point on an invalid stage *)

(** The validity test comes first: without a stage nothing is done. *)
Lemma collect_readers_without_stage a :
  valid a = false -> collect_readers a = a.
Proof.
  unfold valid, collect_readers. destruct (stage_ a); [discriminate | reflexivity].
Qed.

(** An adapter without a valid stage never holds readers: [stage_] is set by
    the constructor only, and readers are registered behind the validity
    test only. *)
Lemma reachable_invalid_registry_empty a :
  reachable a -> stage_ a = None -> readers_ (store a) = [].
Proof.
  induction 1 as [stage params hp bm | a Ha IH | a Ha IH | a hp bm log Ha IH]; simpl.
  - reflexivity.
  - unfold collect_readers. destruct (stage_ a) as [stage|] eqn:E;
      [|intros _; apply IH; reflexivity].
    destruct (traversal_root stage (prim_path_mask (params_ a))) as [[root node] w].
    destruct (collect_readers_prim (params_ a) (GetParent root) node
                (clear_readers (store a))) as [ret s'].
    simpl. discriminate.
  - reflexivity.
  - exact IH.
Qed.

(** C2: on every adapter the class can be in whose stage is not valid,
    [collect_readers] is a no-op: the adapter (registry, reader objects,
    host document, log) is exactly as before, so no error is raised; and
    the registry is empty afterwards, there being no collected readers on
    an adapter without a valid stage. *)
Theorem collect_readers_invalid_stage a :
  reachable a ->
  valid a = false ->
  collect_readers a = a
  /\ readers_ (store a) = []
  /\ readers_ (store (collect_readers a)) = []
  /\ cerr (collect_readers a) = cerr a.
Proof.
  intros Hr Hv. pose proof (collect_readers_without_stage a Hv) as E.
  rewrite E. split; [reflexivity|].
  assert (Hs : stage_ a = None)
    by (unfold valid in Hv; destruct (stage_ a); [discriminate | reflexivity]).
  pose proof (reachable_invalid_registry_empty a Hr Hs). auto.
Qed.

Lemma collect_readers_invalid_stage_witness :
  collect_readers used_invalid_adapter = used_invalid_adapter
  /\ readers_ (store (collect_readers used_invalid_adapter)) = [].
Proof.
  destruct (collect_readers_invalid_stage used_invalid_adapter
              (reach_clear _ (reach_collect _ (reach_new None all_params
                                                 [Some mesh_reader] [])))
              eq_refl) as (H1 & _ & H3 & _).
  split; assumption.
Defined.

(** *** Induction on the prim tree *)

Lemma PrimNode_forall_ind (P : PrimNode -> Prop) :
  (forall d children, Forall P children -> P (Node d children)) ->
  forall node, P node.
Proof.
  intros IH.
  fix self 1.
  intros [d children]. apply IH.
  induction children as [|c rest IHrest]; constructor.
  - apply self.
  - exact IHrest.
Qed.

(** *** The store operations *)

Lemma lookup_snoc_last {A} (l : list A) (x : A) : (l ++ [x]) !! length l = Some x.
Proof.
  rewrite lookup_app_r by lia. rewrite Nat.sub_diag. reflexivity.
Qed.

Lemma insert_snoc_last {A} (l : list A) (x y : A) : <[length l := y]> (l ++ [x]) = l ++ [y].
Proof.
  rewrite insert_app_r_alt by lia. rewrite Nat.sub_diag. reflexivity.
Qed.

Lemma touch_refl T s : touch T s s.
Proof.
  unfold touch. repeat split; eauto.
Qed.

Lemma touch_trans T s1 s2 s3 : touch T s1 s2 -> touch T s2 s3 -> touch T s1 s3.
Proof.
  intros (R1 & L1 & U1 & C1) (R2 & L2 & U2 & C2).
  unfold touch. split; [congruence|]. split; [congruence|]. split.
  - intros h Hh. rewrite U2, U1; auto.
  - intros h r Hr. destruct (C1 h r Hr) as (r1 & Hr1 & E1 & E2).
    destruct (C2 h r1 Hr1) as (r2 & Hr2 & E3 & E4).
    exists r2. split; [assumption|]. split; congruence.
Qed.

Lemma touch_write p r r' s T :
  heap s !! p = Some (Some r) ->
  refcount_ r' = refcount_ r -> object_ r' = object_ r ->
  p ∈ T ->
  touch T s (write_reader p r' s).
Proof.
  intros Hp E1 E2 HT. unfold touch, write_reader; simpl.
  split; [reflexivity|]. split; [apply length_insert|]. split.
  - intros h Hh. apply list_lookup_insert_ne. intros ->. contradiction.
  - intros h r0 Hr0. destruct (decide (h = p)) as [->|Hne].
    + exists r'. rewrite list_lookup_insert_eq by (eapply lookup_lt_Some; eauto).
      split; [reflexivity|]. split; congruence.
    + exists r0. rewrite list_lookup_insert_ne by congruence. auto.
Qed.

Lemma touch_update f p s T :
  (forall r, refcount_ (f r) = refcount_ r /\ object_ (f r) = object_ r) ->
  p ∈ T ->
  touch T s (update_reader f p s).
Proof.
  intros Hf HT. unfold update_reader.
  destruct (heap s !! p) as [[r|]|] eqn:E; try apply touch_refl.
  destruct (Hf r). eapply touch_write; eauto.
Qed.

Lemma touch_set_parents crs n s : touch crs s (set_parents crs n s).
Proof.
  unfold set_parents.
  assert (G : forall l s0, (forall x, x ∈ l -> x ∈ crs) ->
            touch crs s0 (fold_left (fun s1 c => update_reader (set_parent n) c s1) l s0)).
  { induction l as [|c l IHl]; intros s0 Hin; simpl.
    - apply touch_refl.
    - eapply touch_trans.
      + apply (touch_update (set_parent n) c s0 crs).
        * intros r. split; reflexivity.
        * apply Hin. left.
      + apply IHl. intros x Hx. apply Hin. right. exact Hx. }
  apply G. auto.
Qed.

(** The registration of a new reader, step by step, ends in
    [registered_store]. *)
Lemma create_and_register_eq params prim crs s k :
  create_reader_if_allowed params prim = Some k ->
  create_and_register params prim crs s
  = (Some (length (heap s)), registered_store k prim crs s).
Proof.
  intros E. unfold create_and_register, registered_store. rewrite E.
  unfold alloc_reader, create_object, push_back, update_reader, write_reader; simpl.
  rewrite !lookup_snoc_last. simpl.
  rewrite !insert_snoc_last. rewrite lookup_snoc_last. simpl.
  rewrite insert_snoc_last. reflexivity.
Qed.

(** A failed merge attempt writes nothing. *)
Lemma merge_with_parent_false reader :
  fst (merge_with_parent reader) = false -> snd (merge_with_parent reader) = reader.
Proof.
  unfold merge_with_parent.
  repeat match goal with
         | |- context [if ?b then _ else _] => destruct b; simpl; auto
         end.
  discriminate.
Qed.

Lemma merge_with_parent_true reader :
  fst (merge_with_parent reader) = true ->
  snd (merge_with_parent reader) = set_use_parent_xform true reader.
Proof.
  unfold merge_with_parent.
  repeat match goal with
         | |- context [if ?b then _ else _] => destruct b; simpl; auto
         end; discriminate.
Qed.

Lemma merge_with_parent_conditions reader :
  fst (merge_with_parent reader) = merge_conditions reader.
Proof.
  unfold merge_with_parent, merge_conditions.
  destruct (is_xform_reader _), (use_parent_xform_ reader),
    (IsA_opt _ _), (IsA (prim_ reader) UsdGeomXform),
    (IsA (prim_ reader) UsdGeomScope), (prim_has_xform_ops reader); reflexivity.
Qed.

Lemma try_merge_false crs s :
  fst (try_merge crs s) = false -> snd (try_merge crs s) = s.
Proof.
  unfold try_merge. destruct crs as [|c [|c' crs]]; auto.
  unfold merge_with_parent_ptr.
  destruct (heap s !! c) as [[r|]|] eqn:E; auto.
  destruct (merge_with_parent r) as [b r'] eqn:M. simpl. intros ->.
  pose proof (merge_with_parent_false r) as H. rewrite M in H. simpl in H.
  rewrite H by reflexivity.
  unfold write_reader. rewrite list_insert_id by exact E.
  destruct s; reflexivity.
Qed.

Lemma try_merge_true crs s :
  fst (try_merge crs s) = true ->
  exists c r, crs = [c] /\ heap s !! c = Some (Some r)
              /\ merge_conditions r = true
              /\ snd (try_merge crs s) = merged_store c s.
Proof.
  unfold try_merge. destruct crs as [|c [|c' crs]]; try discriminate.
  unfold merge_with_parent_ptr, merged_store, update_reader.
  destruct (heap s !! c) as [[r|]|] eqn:E; try discriminate.
  destruct (merge_with_parent r) as [b r'] eqn:M. simpl. intros ->.
  exists c, r. split; [reflexivity|]. split; [exact E|].
  pose proof (merge_with_parent_true r) as H.
  pose proof (merge_with_parent_conditions r) as Hc.
  rewrite M in H, Hc. simpl in H, Hc. rewrite H by reflexivity.
  split; [congruence |]. rewrite E. reflexivity.
Qed.

(** *** The traversal invariant *)

Lemma frame_refl s : frame s s.
Proof.
  split; auto.
Qed.

Lemma frame_trans s1 s2 s3 : frame s1 s2 -> frame s2 s3 -> frame s1 s3.
Proof.
  intros [L1 U1] [L2 U2]. split; [lia|].
  intros h Hh. rewrite U2 by lia. apply U1. exact Hh.
Qed.

Lemma registered_orphan_frame s1 s2 h regs :
  frame s1 s2 -> readers_ s2 = readers_ s1 ++ regs ->
  h < length (heap s1) ->
  registered_orphan s1 h -> registered_orphan s2 h.
Proof.
  intros [L U] R Hh (r & Hr & Hp & Ho & Hin).
  exists r. rewrite U by exact Hh. repeat split; auto.
  rewrite R. apply elem_of_app. left. exact Hin.
Qed.

Lemma counted_once_frame s1 s2 h :
  frame s1 s2 -> h < length (heap s1) -> counted_once s1 h -> counted_once s2 h.
Proof.
  intros [L U] Hh (r & Hr & Hc & Ho).
  exists r. rewrite U by exact Hh. auto.
Qed.

Lemma traversal_post_nil s : traversal_post s [] [] s.
Proof.
  unfold traversal_post. split; [apply frame_refl|]. split.
  - exists []. rewrite app_nil_r. split; [reflexivity|]. split; [constructor|].
    intros x Hx. inversion Hx.
  - split; [constructor|]. split; intros h Hh; inversion Hh.
Qed.

Lemma traversal_post_seq s s1 s2 l1 d1 l2 d2 :
  traversal_post s l1 d1 s1 -> traversal_post s1 l2 d2 s2 ->
  traversal_post s (l1 ++ l2) (d1 ++ d2) s2.
Proof.
  intros (F1 & (regs1 & R1 & N1 & P1) & ND1 & Ret1 & D1)
         (F2 & (regs2 & R2 & N2 & P2) & ND2 & Ret2 & D2).
  pose proof F1 as [L1 U1]. pose proof F2 as [L2 U2].
  unfold traversal_post. split; [eapply frame_trans; eauto|]. split.
  { exists (regs1 ++ regs2). split; [rewrite R2, R1, app_assoc; reflexivity|]. split.
    - apply NoDup_app. split; [exact N1|]. split; [|exact N2].
      intros x Hx1 Hx2.
      destruct (P1 x Hx1) as (h & -> & [? ?] & _).
      destruct (P2 _ Hx2) as (h' & E & [? ?] & _).
      inversion E; subst. lia.
    - intros x Hx. apply elem_of_app in Hx as [Hx|Hx].
      + destruct (P1 x Hx) as (h & -> & [? ?] & C). exists h.
        split; [reflexivity|]. split; [unfold fresh; lia|].
        eapply counted_once_frame; eauto.
      + destruct (P2 x Hx) as (h & -> & [? ?] & C). exists h.
        split; [reflexivity|]. split; [unfold fresh; lia | exact C]. }
  split.
  { apply NoDup_app. split; [exact ND1|]. split; [|exact ND2].
    intros h H1 H2.
    destruct (Ret1 h H1) as [[? ?] _]. destruct (Ret2 h H2) as [[? ?] _]. lia. }
  split.
  { intros h Hh. apply elem_of_app in Hh as [Hh|Hh].
    - destruct (Ret1 h Hh) as [[? ?] O]. split; [unfold fresh; lia|].
      eapply registered_orphan_frame; eauto.
    - destruct (Ret2 h Hh) as [[? ?] O]. split; [unfold fresh; lia|exact O]. }
  intros h Hh. apply elem_of_app in Hh as [Hh|Hh].
  - destruct (D1 h Hh) as (Hn & [? ?] & O). split; [|split].
    + rewrite not_elem_of_app. split; [exact Hn|]. intros H2.
      destruct (Ret2 h H2) as [[? ?] _]. lia.
    + unfold fresh; lia.
    + eapply registered_orphan_frame; eauto.
  - destruct (D2 h Hh) as (Hn & [? ?] & O). split; [|split].
    + rewrite not_elem_of_app. split; [|exact Hn]. intros H1.
      destruct (Ret1 h H1) as [[? ?] _]. lia.
    + unfold fresh; lia.
    + exact O.
Qed.

(** Readers that are not handed upward count as discarded. *)
Lemma traversal_post_discard s l d s1 :
  traversal_post s l d s1 -> traversal_post s [] (d ++ l) s1.
Proof.
  intros (F & R & ND & Ret & D).
  unfold traversal_post. split; [exact F|]. split; [exact R|].
  split; [constructor|]. split; [intros h Hh; inversion Hh|].
  intros h Hh. split; [intros Hn; inversion Hn|].
  apply elem_of_app in Hh as [Hh|Hh].
  - destruct (D h Hh) as (_ & ? & ?). auto.
  - apply Ret. exact Hh.
Qed.

Lemma traversal_post_forget s l d s1 :
  traversal_post s l d s1 -> traversal_post s [] d s1.
Proof.
  intros (F & R & ND & Ret & D).
  unfold traversal_post. split; [exact F|]. split; [exact R|].
  split; [constructor|]. split; [intros h Hh; inversion Hh|].
  intros h Hh. split; [intros Hn; inversion Hn|].
  destruct (D h Hh) as (_ & ? & ?). auto.
Qed.

Lemma registered_orphan_untouched T s1 s' h :
  touch T s1 s' -> h ∉ T -> registered_orphan s1 h -> registered_orphan s' h.
Proof.
  intros (R & L & U & C) Hh (r & Hr & Hp & Ho & Hin).
  exists r. rewrite U by exact Hh. rewrite R. auto.
Qed.

(** Writes to fresh readers that change no count and no object keep the
    invariant, for the returned readers that are still registered orphans. *)
Lemma traversal_post_touch s l d s1 s' T l' :
  traversal_post s l d s1 -> touch T s1 s' ->
  (forall h, h ∈ T -> length (heap s) <= h) ->
  (forall h, h ∈ d -> h ∉ T) ->
  NoDup l' ->
  (forall h, h ∈ l' -> h ∈ l /\ registered_orphan s' h) ->
  traversal_post s l' d s'.
Proof.
  intros ([L U] & (regs & R & N & P) & ND & Ret & D) Ht HT HdT ND' Hl'.
  pose proof Ht as (R' & L' & U' & C').
  unfold traversal_post. split.
  { split; [lia|]. intros h Hh. rewrite U'.
    - apply U. exact Hh.
    - intros Hin. apply HT in Hin. lia. }
  split.
  { exists regs. split; [congruence|]. split; [exact N|].
    intros x Hx. destruct (P x Hx) as (h & -> & [? ?] & (r & Hr & Hc & Ho)).
    exists h. split; [reflexivity|]. split; [unfold fresh; lia|].
    destruct (C' h r Hr) as (r' & Hr' & E1 & E2).
    exists r'. split; [exact Hr'|]. split; congruence. }
  split; [exact ND'|]. split.
  { intros h Hh. destruct (Hl' h Hh) as [Hin O]. split; [|exact O].
    destruct (Ret h Hin) as [[? ?] _]. unfold fresh; lia. }
  intros h Hh. destruct (D h Hh) as (Hn & [? ?] & O). split; [|split].
  - intros Hin. apply Hl' in Hin as [Hin _]. contradiction.
  - unfold fresh; lia.
  - eapply registered_orphan_untouched; eauto.
Qed.

(** Creating, registering and counting the prim's own reader. *)
Lemma traversal_post_register k prim s :
  traversal_post s [length (heap s)] []
    {| readers_ := readers_ s ++ [Some (length (heap s))];
       heap := heap s ++ [Some {| reader_class := k; prim_ := prim; parent_reader_ := None;
                                  refcount_ := 1; use_parent_xform_ := false;
                                  object_ := Some (length (bmain s)) |}];
       bmain := bmain s ++ [ {| ob_name := name (prim_data prim); ob_class := k;
                                ob_time := 0 |} ] |}.
Proof.
  unfold traversal_post, frame, fresh, counted_once, registered_orphan; simpl.
  rewrite length_app; simpl.
  split.
  { split; [lia|]. intros h Hh. apply lookup_app_l. exact Hh. }
  split.
  { exists [Some (length (heap s))]. split; [reflexivity|]. split.
    - apply NoDup_singleton.
    - intros x Hx. apply list_elem_of_singleton in Hx as ->.
      eexists. split; [reflexivity|]. split; [lia|].
      eexists. rewrite lookup_snoc_last. split; [reflexivity|]. simpl. eauto. }
  split; [apply NoDup_singleton|]. split.
  - intros h Hh. apply list_elem_of_singleton in Hh as ->. split; [lia|].
    eexists. rewrite lookup_snoc_last. split; [reflexivity|]. simpl.
    split; [reflexivity|]. split; [eauto|].
    apply elem_of_app. right. apply list_elem_of_singleton. reflexivity.
  - intros h Hh. inversion Hh.
Qed.

Lemma after_children_post params prim s crs d s1 ret s' :
  traversal_post s crs d s1 ->
  after_children params prim crs s1 = (ret, s') ->
  traversal_post s (option_list ret)
    (d ++ (if drops_children params prim crs s1 then crs else [])) s'.
Proof.
  intros Hpost. unfold after_children, drops_children.
  destruct (IsPseudoRoot prim); simpl.
  { intros [= <- <-]. rewrite app_nil_r. eapply traversal_post_forget; eauto. }
  destruct (try_merge crs s1) as [merged sm] eqn:TM.
  destruct merged; simpl.
  - (* merged into the single child *)
    destruct (try_merge_true crs s1) as (c & r & -> & Hr & _ & Hsm);
      [rewrite TM; reflexivity|].
    rewrite TM in Hsm. simpl in Hsm. subst sm.
    intros [= <- <-]. simpl. rewrite app_nil_r.
    pose proof Hpost as (_ & _ & _ & Ret & D).
    destruct (Ret c) as [[Hlo Hhi] (r0 & Hr0 & Hp & Ho & Hin)]; [left|].
    assert (r0 = r) by congruence. subst r0.
    eapply (traversal_post_touch s [c] d s1 _ [c] [c]); eauto.
    + unfold merged_store. apply touch_update; [|left].
      intros r1. split; reflexivity.
    + intros h Hh. apply list_elem_of_singleton in Hh as ->. exact Hlo.
    + intros h Hh. destruct (D h Hh) as [Hn _]. exact Hn.
    + apply NoDup_singleton.
    + intros h Hh. split; [exact Hh|]. apply list_elem_of_singleton in Hh as ->.
      exists (set_use_parent_xform true r).
      unfold merged_store, update_reader. rewrite Hr. simpl.
      rewrite list_lookup_insert_eq by (eapply lookup_lt_Some; eauto).
      auto.
  - (* no merge *)
    pose proof (try_merge_false crs s1) as Hsm. rewrite TM in Hsm.
    simpl in Hsm. rewrite Hsm by reflexivity. clear Hsm TM sm.
    destruct (create_reader_if_allowed params prim) as [k|] eqn:Ek.
    + rewrite (create_and_register_eq _ _ _ _ k Ek).
      intros [= <- <-]. simpl. rewrite app_nil_r.
      pose proof (traversal_post_seq _ _ _ _ _ _ _ Hpost
                    (traversal_post_register k prim s1)) as Hreg.
      rewrite app_nil_r in Hreg.
      pose proof Hpost as (_ & _ & _ & Ret & D).
      assert (Hfresh : length (heap s1) ∉ crs).
      { intros Hin. destruct (Ret _ Hin) as [[? ?] _]. lia. }
      eapply (traversal_post_touch s _ d _ _ crs [length (heap s1)]);
        [exact Hreg | apply touch_set_parents | | | apply NoDup_singleton |].
      * intros h Hh. destruct (Ret h Hh) as [[? ?] _]. assumption.
      * intros h Hh. destruct (D h Hh) as [Hn _]. exact Hn.
      * intros h Hh. apply list_elem_of_singleton in Hh as ->.
        split; [apply elem_of_app; right; left|].
        eapply registered_orphan_untouched;
          [apply touch_set_parents | exact Hfresh |].
        destruct Hreg as (_ & _ & _ & Ret' & _).
        apply Ret'. apply elem_of_app; right; left.
    + unfold create_and_register. rewrite Ek.
      intros [= <- <-]. simpl. eapply traversal_post_discard; eauto.
Qed.

Lemma collect_children_post collect disc_in fp cs :
  Forall (fun c => forall s ret s', collect c s = (ret, s') ->
                   traversal_post s (option_list ret) (disc_in c s) s') cs ->
  forall s crs s1,
    collect_children collect fp cs s = (crs, s1) ->
    traversal_post s crs (discarded_children collect disc_in fp cs s) s1.
Proof.
  induction 1 as [|c rest Hc Hrest IH]; intros s crs s1; simpl.
  - intros [= <- <-]. apply traversal_post_nil.
  - destruct (fp (node_data c)); [|apply IH].
    destruct (collect c s) as [r sa] eqn:E1.
    destruct (collect_children collect fp rest sa) as [rs sb] eqn:E2.
    intros [= <- <-]. simpl.
    replace (match r with Some child_reader => child_reader :: rs | None => rs end)
      with (option_list r ++ rs) by (destruct r; reflexivity).
    eapply traversal_post_seq; eauto.
Qed.

(** The invariant of [collect_readers(bmain, prim)]. *)
Lemma collect_readers_prim_post params node :
  forall parent s ret s',
    collect_readers_prim params parent node s = (ret, s') ->
    traversal_post s (option_list ret) (discarded params parent node s) s'.
Proof.
  induction node as [d children IH] using PrimNode_forall_ind.
  intros parent s ret s'. simpl.
  destruct (passes_filters params (Prim d parent)); simpl.
  - destruct (collect_children _ _ children s) as [crs s1] eqn:E.
    intros Hafter. eapply after_children_post; [|exact Hafter].
    eapply collect_children_post; [|exact E].
    eapply Forall_impl; [exact IH|]. simpl. intros c Hc. apply Hc.
  - intros [= <- <-]. apply traversal_post_nil.
Qed.

(** *** Reader selection in the traversal *)

(** When the traversal reaches the creation of the prim's own reader (the
    prim passed the filters, is not the pseudo-root and nothing was merged),
    it does what [create_and_register] does from the store the children
    left. *)
Lemma collect_without_merge params parent d children s crs s1 :
  passes_filters params (Prim d parent) = true ->
  IsPseudoRoot (Prim d parent) = false ->
  collect_children (collect_readers_prim params (Some (Prim d parent)))
    (UsdPrimDefaultPredicate (import_instance_proxies params)) children s = (crs, s1) ->
  fst (try_merge crs s1) = false ->
  collect_readers_prim params parent (Node d children) s
  = create_and_register params (Prim d parent) crs s1.
Proof.
  intros Hf Hroot E Hm. simpl. rewrite Hf. simpl. simpl in E. rewrite E.
  unfold after_children. rewrite Hroot.
  pose proof (try_merge_false crs s1 Hm) as Hs.
  destruct (try_merge crs s1) as [merged sm]. simpl in Hm, Hs. subst merged sm.
  reflexivity.
Qed.

(** An imageable prim always gets a reader of its own. *)
Lemma imageable_has_reader params prim :
  IsA prim UsdGeomImageable = true ->
  exists k, create_reader_if_allowed params prim = Some k.
Proof.
  intros H. unfold create_reader_if_allowed. rewrite H.
  repeat match goal with
         | |- context [if ?b then _ else _] => destruct b; eauto
         end.
Qed.

(** *** The merge decision *)

(** C1 as stated fails in its last clause: at the untyped prim /grp with the
    single child /grp/mesh the merge does not take place (the parent is not
    an Xform), and yet /grp gets no reader and the mesh reader no parent. *)
Lemma failed_merge_without_parent_reader : ~ failed_merge_always_parents.
Proof.
  intros H.
  destruct (H all_params (Some (Prim root_data None)) group_data [Node mesh_data []]
              empty_store 0 _ eq_refl eq_refl eq_refl) as (p & s' & r & E & _).
  vm_compute in E. discriminate E.
Qed.

(** C1, amended: when the recursion below a prim produced exactly one child
    reader [c], that reader is live.  At the pseudo-root nothing is merged
    and no reader is created.  At any other prim,
    - if [c] is an Xform-family reader, not yet flagged, its prim's parent is
      an Xform, its prim is neither Xform nor Scope and has no transform
      ops, then no reader is created for the prim, the child is flagged as
      using its parent's transform (nothing else changes) and is returned;
    - otherwise the prim's own reader is chosen by
      [create_reader_if_allowed]: if there is one (there always is for an
      imageable prim) it is created at the next free pointer, registered,
      returned, and the child is parented under it; if there is none,
      nothing is returned and the store stays as the children left it. *)
Theorem merge_decision params parent d children s c s1 :
  passes_filters params (Prim d parent) = true ->
  collect_children (collect_readers_prim params (Some (Prim d parent)))
    (UsdPrimDefaultPredicate (import_instance_proxies params)) children s = ([c], s1) ->
  exists r,
    heap s1 !! c = Some (Some r)
    /\ (IsPseudoRoot (Prim d parent) = true ->
        collect_readers_prim params parent (Node d children) s = (None, s1))
    /\ (IsPseudoRoot (Prim d parent) = false ->
        merge_conditions r = true ->
        collect_readers_prim params parent (Node d children) s = (Some c, merged_store c s1)
        /\ merged_store c s1 = write_reader c (set_use_parent_xform true r) s1)
    /\ (IsPseudoRoot (Prim d parent) = false ->
        merge_conditions r = false ->
        match create_reader_if_allowed params (Prim d parent) with
        | Some k =>
            collect_readers_prim params parent (Node d children) s
            = (Some (length (heap s1)), registered_store k (Prim d parent) [c] s1)
            /\ heap (registered_store k (Prim d parent) [c] s1) !! c
               = Some (Some (set_parent (length (heap s1)) r))
            /\ heap (registered_store k (Prim d parent) [c] s1) !! length (heap s1)
               = Some (Some {| reader_class := k; prim_ := Prim d parent;
                               parent_reader_ := None; refcount_ := 1;
                               use_parent_xform_ := false;
                               object_ := Some (length (bmain s1)) |})
        | None =>
            collect_readers_prim params parent (Node d children) s = (None, s1)
        end)
    /\ (IsA (Prim d parent) UsdGeomImageable = true ->
        exists k, create_reader_if_allowed params (Prim d parent) = Some k).
Proof.
  intros Hf E.
  assert (Hpost : traversal_post s [c]
            (discarded_children (collect_readers_prim params (Some (Prim d parent)))
               (discarded params (Some (Prim d parent)))
               (UsdPrimDefaultPredicate (import_instance_proxies params)) children s) s1).
  { eapply collect_children_post; [|exact E].
    apply Forall_forall. intros x _ s0 ret s0'. apply collect_readers_prim_post. }
  destruct Hpost as (_ & _ & _ & Ret & _).
  destruct (Ret c) as [[Hlo Hhi] (r & Hr & Hp & Ho & Hin)]; [left|].
  exists r. split; [exact Hr|].
  assert (Hcall : collect_readers_prim params parent (Node d children) s
                  = after_children params (Prim d parent) [c] s1).
  { simpl. rewrite Hf. simpl. simpl in E. rewrite E. reflexivity. }
  rewrite Hcall. unfold after_children.
  unfold try_merge, merge_with_parent_ptr. rewrite Hr.
  pose proof (merge_with_parent_conditions r) as Hc.
  pose proof (merge_with_parent_true r) as Ht.
  pose proof (merge_with_parent_false r) as Hfl.
  destruct (merge_with_parent r) as [merged r'] eqn:M. simpl in Hc, Ht, Hfl.
  split; [|split; [|split]].
  - intros ->. reflexivity.
  - intros -> Hm. rewrite Hm in Hc. subst merged. rewrite Ht by reflexivity.
    unfold merged_store, update_reader. rewrite Hr. auto.
  - intros -> Hm. rewrite Hm in Hc. subst merged. rewrite Hfl by reflexivity.
    assert (Hid : write_reader c r s1 = s1).
    { unfold write_reader. rewrite list_insert_id by exact Hr. destruct s1; reflexivity. }
    rewrite Hid.
    destruct (create_reader_if_allowed params (Prim d parent)) as [k|] eqn:Ek.
    + rewrite (create_and_register_eq _ _ _ _ k Ek). split; [reflexivity|].
      unfold registered_store, set_parents, update_reader, write_reader; simpl.
      rewrite (lookup_app_l_Some _ _ _ _ Hr). simpl.
      split.
      * rewrite list_lookup_insert_eq; [reflexivity|].
        rewrite length_app. simpl. lia.
      * rewrite list_lookup_insert_ne by lia. apply lookup_snoc_last.
    + unfold create_and_register. rewrite Ek. reflexivity.
  - apply imageable_has_reader.
Qed.

Lemma merge_decision_witness :
  collect_readers_prim all_params (Some (Prim root_data None))
    (Node xform_data [Node mesh_data []]) empty_store
  = (Some 0, merged_store 0 mesh_store).
Proof.
  destruct (merge_decision all_params (Some (Prim root_data None)) xform_data
              [Node mesh_data []] empty_store 0 mesh_store eq_refl eq_refl)
    as (r & Hr & _ & Hm & _).
  apply Hm; [reflexivity|]. vm_compute in Hr. injection Hr as <-. reflexivity.
Defined.

(** *** Discarded child readers *)

(** C8: at a prim other than the pseudo-root for which no reader class
    applies and no merge takes place, the traversal returns nothing and
    leaves the store as the children's traversal left it, so the child
    readers are discarded; and at the end of the traversal of any prim above
    (any ancestor), every discarded reader is still live and registered, has
    its host object, has no parent and is not the reader handed upward. *)
Theorem discarded_children_stay_orphans params parent node s :
  (forall crs s1,
     passes_filters params (Prim (node_data node) parent) = true ->
     collect_children (collect_readers_prim params (Some (Prim (node_data node) parent)))
       (UsdPrimDefaultPredicate (import_instance_proxies params))
       (node_children node) s = (crs, s1) ->
     drops_children params (Prim (node_data node) parent) crs s1 = true ->
     collect_readers_prim params parent node s = (None, s1)
     /\ forall c, c ∈ crs -> c ∈ discarded params parent node s)
  /\ (forall h,
      h ∈ discarded params parent node s ->
      fst (collect_readers_prim params parent node s) <> Some h
      /\ registered_orphan (snd (collect_readers_prim params parent node s)) h).
Proof.
  split.
  - destruct node as [d children]. simpl node_data. simpl node_children.
    intros crs s1 Hf E Hdrop. simpl. rewrite Hf. simpl. simpl in E. rewrite E.
    rewrite Hdrop. split.
    + unfold drops_children in Hdrop. unfold after_children.
      destruct (IsPseudoRoot (Prim d parent)); [discriminate|]. simpl in Hdrop.
      pose proof (try_merge_false crs s1) as Hsm.
      destruct (try_merge crs s1) as [merged sm]. simpl in Hdrop, Hsm.
      destruct merged; [discriminate|]. simpl in Hdrop.
      rewrite Hsm by reflexivity. unfold create_and_register.
      destruct (create_reader_if_allowed params (Prim d parent)); [discriminate|].
      reflexivity.
    + intros c Hc. apply elem_of_app. right. exact Hc.
  - intros h Hh.
    destruct (collect_readers_prim params parent node s) as [ret s'] eqn:E.
    destruct (collect_readers_prim_post _ _ _ _ _ _ E) as (_ & _ & _ & _ & D).
    destruct (D h Hh) as (Hn & _ & O). simpl. split; [|exact O].
    intros ->. apply Hn. left.
Qed.

Lemma discarded_children_stay_orphans_witness :
  (collect_readers_prim all_params
     (Some (Prim (plain_prim "top" (Some UsdGeomXform)) (Some (Prim root_data None))))
     (Node group_data [Node mesh_data []]) empty_store
   = (None, mesh_store_under_top))
  /\ fst (collect_readers_prim all_params None nested_group_tree empty_store) <> Some 0
  /\ registered_orphan
       (snd (collect_readers_prim all_params None nested_group_tree empty_store)) 0.
Proof.
  split.
  - apply (proj1 (discarded_children_stay_orphans all_params
                    (Some (Prim (plain_prim "top" (Some UsdGeomXform))
                       (Some (Prim root_data None))))
                    (Node group_data [Node mesh_data []]) empty_store)
             [0] mesh_store_under_top eq_refl eq_refl eq_refl).
  - apply (proj2 (discarded_children_stay_orphans all_params None nested_group_tree
                    empty_store) 0).
    vm_compute. left.
Defined.

(** *** Reference counts and [clear_readers] *)

Lemma clear_reader_other s x h :
  x <> Some h -> heap (clear_reader s x) !! h = heap s !! h.
Proof.
  intros Hx. destruct x as [p|]; [|reflexivity].
  assert (Hp : p <> h) by congruence.
  unfold clear_reader, update_reader, write_reader.
  destruct (heap s !! p) as [[r|]|] eqn:E; simpl; rewrite ?E; simpl; try reflexivity.
  rewrite list_lookup_insert_eq by (eapply lookup_lt_Some; eauto).
  destruct (refcount_ (decref r) =? 0)%Z; simpl.
  - rewrite !list_lookup_insert_ne by exact Hp. reflexivity.
  - rewrite list_lookup_insert_ne by exact Hp. reflexivity.
Qed.

Lemma clear_reader_live s p r :
  heap s !! p = Some (Some r) ->
  heap (clear_reader s (Some p)) !! p
  = Some (if (refcount_ r =? 1)%Z then None else Some (decref r)).
Proof.
  intros E. pose proof (lookup_lt_Some _ _ _ E) as Hlt.
  unfold clear_reader, update_reader, write_reader. rewrite E. simpl.
  rewrite list_lookup_insert_eq by exact Hlt.
  replace (refcount_ (decref r) =? 0)%Z with (refcount_ r =? 1)%Z
    by (simpl; destruct (Z.eqb_spec (refcount_ r) 1), (Z.eqb_spec (refcount_ r - 1) 0);
        try reflexivity; lia).
  destruct (refcount_ r =? 1)%Z; simpl.
  - apply list_lookup_insert_eq. rewrite length_insert. exact Hlt.
  - apply list_lookup_insert_eq. exact Hlt.
Qed.

Lemma clear_loop_other l :
  forall s h, Some h ∉ l -> heap (fold_left clear_reader l s) !! h = heap s !! h.
Proof.
  induction l as [|x l IH]; intros s h Hn; simpl; [reflexivity|].
  apply not_elem_of_cons in Hn as [Hne Hn].
  rewrite IH by exact Hn. apply clear_reader_other. congruence.
Qed.

(** The loop of [clear_readers] over a registry without repetitions:
    each registered live reader is decremented once and deleted exactly when
    that brings the count to zero; no other reader is touched. *)
Lemma clear_loop l :
  NoDup l ->
  forall s,
    (forall h r, Some h ∈ l -> heap s !! h = Some (Some r) ->
       heap (fold_left clear_reader l s) !! h
       = Some (if (refcount_ r =? 1)%Z then None else Some (decref r)))
    /\ (forall h, Some h ∉ l -> heap (fold_left clear_reader l s) !! h = heap s !! h).
Proof.
  induction 1 as [|x l Hx Hl IH]; intros s; simpl.
  - split; [intros h r Hin; inversion Hin | reflexivity].
  - destruct (IH (clear_reader s x)) as [IH1 IH2]. split.
    + intros h r Hin Hr. apply elem_of_cons in Hin as [Heq|Hin].
      * subst x. rewrite IH2 by exact Hx. apply clear_reader_live. exact Hr.
      * apply IH1; [exact Hin|]. rewrite clear_reader_other; [exact Hr|].
        intros ->. contradiction.
    + intros h Hn. apply not_elem_of_cons in Hn as [Hne Hn].
      rewrite IH2 by exact Hn. apply clear_reader_other. congruence.
Qed.

Lemma clear_readers_twice s : clear_readers (clear_readers s) = clear_readers s.
Proof.
  reflexivity.
Qed.

(** The registry after the top-level [collect_readers]: distinct readers,
    each counted exactly once. *)
Lemma collect_readers_registry a stage :
  stage_ a = Some stage ->
  NoDup (readers_ (store (collect_readers a)))
  /\ forall x, x ∈ readers_ (store (collect_readers a)) ->
       exists h, x = Some h /\ counted_once (store (collect_readers a)) h.
Proof.
  intros Hs. unfold collect_readers. rewrite Hs.
  destruct (traversal_root stage (prim_path_mask (params_ a))) as [[root node] w].
  destruct (collect_readers_prim (params_ a) (GetParent root) node
              (clear_readers (store a))) as [ret s'] eqn:E.
  simpl.
  destruct (collect_readers_prim_post _ _ _ _ _ _ E) as (_ & (regs & R & N & P) & _).
  simpl in R. rewrite R. split; [exact N|].
  intros x Hx. destruct (P x Hx) as (h & -> & _ & C). eauto.
Qed.

(** C5 as stated fails: a successful merge does not retain the reader; on
    the mesh reader of the Xform-over-mesh stage [merge_with_parent]
    succeeds and the count stays 1. *)
Lemma merge_keeps_refcount : ~ merge_retains_reader.
Proof.
  intros H. specialize (H mesh_reader _ eq_refl). vm_compute in H. discriminate H.
Qed.

(** C5, amended: a reader's count is incremented exactly once, when it is
    registered, and [merge_with_parent] never changes it; only
    [clear_readers] decrements, once per registered reader, and deletes a
    reader exactly when its count reaches zero.  So after the top-level
    [collect_readers] the registered readers are distinct and each has count
    1, after [clear_readers] each of them is deallocated and the registry is
    empty, and a second [clear_readers] changes nothing. *)
Theorem reader_lifetime a stage :
  stage_ a = Some stage ->
  NoDup (readers_ (store (collect_readers a)))
  /\ (forall x, x ∈ readers_ (store (collect_readers a)) ->
      exists h, x = Some h /\ counted_once (store (collect_readers a)) h)
  /\ (forall r, refcount_ (snd (merge_with_parent r)) = refcount_ r)
  /\ (forall s h r, NoDup (readers_ s) -> Some h ∈ readers_ s ->
      heap s !! h = Some (Some r) ->
      heap (clear_readers s) !! h
      = Some (if (refcount_ r =? 1)%Z then None else Some (decref r)))
  /\ (forall s h, Some h ∉ readers_ s -> heap (clear_readers s) !! h = heap s !! h)
  /\ all_deallocated (readers_ (store (collect_readers a)))
       (clear_readers (store (collect_readers a)))
  /\ readers_ (clear_readers (store (collect_readers a))) = []
  /\ clear_readers (clear_readers (store (collect_readers a)))
     = clear_readers (store (collect_readers a)).
Proof.
  intros Hs. destruct (collect_readers_registry a stage Hs) as [N P].
  split; [exact N|]. split; [exact P|]. split.
  { intros r. unfold merge_with_parent.
    repeat match goal with
           | |- context [if ?b then _ else _] => destruct b; simpl; auto
           end. }
  split.
  { intros s h r Hn Hin Hr. unfold clear_readers. simpl.
    apply (clear_loop _ Hn s); assumption. }
  split.
  { intros s h Hn. unfold clear_readers. simpl. apply clear_loop_other. exact Hn. }
  split.
  { intros h Hin. destruct (P _ Hin) as (h' & E & r & Hr & Hc & _).
    inversion E; subst h'. unfold clear_readers. simpl.
    rewrite (proj1 (clear_loop _ N _) h r Hin Hr). rewrite Hc. reflexivity. }
  split; reflexivity.
Qed.

Lemma reader_lifetime_witness :
  all_deallocated
    (readers_ (store (collect_readers (adapter_of xform_mesh_ops_tree all_params))))
    (clear_readers (store (collect_readers (adapter_of xform_mesh_ops_tree all_params))))
  /\ readers_ (clear_readers
                 (store (collect_readers (adapter_of xform_mesh_ops_tree all_params)))) = [].
Proof.
  destruct (reader_lifetime (adapter_of xform_mesh_ops_tree all_params)
              (stage_of xform_mesh_ops_tree) eq_refl)
    as (_ & _ & _ & _ & _ & Hall & Hnil & _).
  split; assumption.
Defined.

(** *** The prim path mask *)

Lemma collect_children_ext f g fp cs :
  Forall (fun c => forall s, f c s = g c s) cs ->
  forall s, collect_children f fp cs s = collect_children g fp cs s.
Proof.
  induction 1 as [|c rest Hc Hrest IH]; intros s; simpl; [reflexivity|].
  destruct (fp (node_data c)); [|apply IH].
  rewrite Hc. destruct (g c s) as [r s1]. rewrite IH. reflexivity.
Qed.

(** The traversal does not read the mask. *)
Lemma collect_readers_prim_mask params mask node :
  forall parent s,
    collect_readers_prim (with_mask params mask) parent node s
    = collect_readers_prim params parent node s.
Proof.
  induction node as [d children IH] using PrimNode_forall_ind.
  intros parent s. simpl.
  change (passes_filters (with_mask params mask) (Prim d parent))
    with (passes_filters params (Prim d parent)).
  destruct (passes_filters params (Prim d parent)); simpl; [|reflexivity].
  rewrite (collect_children_ext
             (collect_readers_prim (with_mask params mask) (Some (Prim d parent)))
             (collect_readers_prim params (Some (Prim d parent)))).
  - reflexivity.
  - eapply Forall_impl; [exact IH|]. simpl. intros c Hc s0. apply Hc.
Qed.

(** The handle [GetPrimAtPath] returns is the handle of the tree node it
    returns. *)
Lemma prim_at_handle path :
  forall p n p' n',
    prim_data p = node_data n ->
    prim_at p n path = Some (p', n') ->
    p' = Prim (node_data n') (GetParent p').
Proof.
  induction path as [|x path IH]; intros p n p' n' Hd; simpl.
  - intros [= <- <-]. destruct p as [d q]. simpl in *. congruence.
  - destruct (List.find _ (node_children n)) as [c|]; [|discriminate].
    apply IH. reflexivity.
Qed.

(** C7: with a non-empty mask that resolves to a valid prim, the traversal
    starts at that prim (from the cleared registry) and nothing is written
    to the log; with a non-empty mask that resolves to no prim, exactly one
    line is appended to the log, the text "WARNING: Prim Path Mask <mask>
    does not specify a valid prim." with a newline, and [collect_readers]
    ends with the same stage, store and therefore reader hierarchy as it does
    with no mask configured (which writes nothing), the traversal having
    started at the pseudo-root. *)
Theorem path_mask a stage :
  stage_ a = Some stage ->
  prim_path_mask (params_ a) <> "" ->
  match GetPrimAtPath stage (SdfPath (prim_path_mask (params_ a))) with
  | Some (root, node) =>
      root = Prim (node_data node) (GetParent root)
      /\ collect_readers a
         = {| stage_ := Some (SetInterpolationType UsdInterpolationTypeHeld stage);
              params_ := params_ a;
              store := snd (collect_readers_prim (params_ a) (GetParent root) node
                              (clear_readers (store a)));
              cerr := cerr a |}
  | None =>
      let unmasked := collect_readers (with_params a (with_mask (params_ a) "")) in
      store (collect_readers a) = store unmasked
      /\ stage_ (collect_readers a) = stage_ unmasked
      /\ cerr unmasked = cerr a
      /\ cerr (collect_readers a)
         = cerr a ++ [("WARNING: Prim Path Mask " ++ prim_path_mask (params_ a)
                       ++ " does not specify a valid prim."
                       ++ String (ascii_of_nat 10) "")%string]
      /\ store unmasked
         = snd (collect_readers_prim (params_ a) None (pseudo_root stage)
                  (clear_readers (store a)))
  end.
Proof.
  intros Hs Hmask. apply String.eqb_neq in Hmask.
  unfold collect_readers. simpl. rewrite Hs. unfold traversal_root. rewrite Hmask.
  destruct (GetPrimAtPath stage (SdfPath (prim_path_mask (params_ a))))
    as [[root node]|] eqn:E.
  - split.
    + unfold GetPrimAtPath in E. destruct (SdfPath _) as [comps|]; [|discriminate].
      eapply prim_at_handle; [|exact E]. reflexivity.
    + destruct (collect_readers_prim (params_ a) (GetParent root) node
                  (clear_readers (store a))) as [ret s']. simpl.
      rewrite app_nil_r. reflexivity.
  - simpl. rewrite collect_readers_prim_mask.
    destruct (collect_readers_prim (params_ a) None (pseudo_root stage)
                (clear_readers (store a))) as [ret s']. simpl.
    repeat split; try reflexivity. apply app_nil_r.
Qed.

Lemma path_mask_witness :
  store (collect_readers (adapter_of nested_group_tree (with_mask all_params "/top/nop")))
  = store (collect_readers (adapter_of nested_group_tree all_params))
  /\ cerr (collect_readers (adapter_of nested_group_tree (with_mask all_params "/top/nop")))
     = [("WARNING: Prim Path Mask /top/nop does not specify a valid prim."
         ++ String (ascii_of_nat 10) "")%string]
  /\ store (collect_readers
              (adapter_of nested_group_tree (with_mask all_params "/top/grp")))
     = mesh_store_under_top.
Proof.
  pose proof (path_mask (adapter_of nested_group_tree (with_mask all_params "/top/nop"))
                (stage_of nested_group_tree) eq_refl) as H.
  pose proof (path_mask (adapter_of nested_group_tree (with_mask all_params "/top/grp"))
                (stage_of nested_group_tree) eq_refl) as H'.
  simpl in H, H'.
  destruct H as (Hstore & _ & _ & Hcerr & _); [discriminate|].
  destruct H' as [_ Hvalid]; [discriminate|].
  split; [exact Hstore|]. split; [exact Hcerr|].
  rewrite Hvalid. reflexivity.
Defined.

End UsdProofs.

(* ===================================================================== *)
(** ** Properties of the keyframe list                                    *)
(* ===================================================================== *)

Module KeylistProofs.
Import Keylist.
Local Open Scope list_scope.

Lemma Qltb_lt a b : Qltb a b = true <-> (a < b)%Q.
Proof.
  unfold Qltb. rewrite Qlt_alt. destruct (a ?= b)%Q; split; congruence.
Qed.

(** *** The index stays in ascending order *)

Lemma add_key_Forall (P : ActKeyColumn -> Prop) k l :
  P (new_column k) -> (forall c, P c -> P (update_column k c)) ->
  Forall P l -> Forall P (add_key k l).
Proof.
  intros Hnew Hupd. induction 1 as [|c rest Hc Hrest IH]; simpl.
  - constructor; [exact Hnew | constructor].
  - destruct (k_cfra k ?= cfra c)%Q.
    + constructor; [apply Hupd; exact Hc | exact Hrest].
    + constructor; [exact Hnew|]. constructor; assumption.
    + constructor; assumption.
Qed.

Lemma add_key_ascending k l : ascending l -> ascending (add_key k l).
Proof.
  induction l as [|c rest IH]; simpl.
  - intros _. split; [constructor | exact I].
  - intros [Hc Hrest].
    destruct (k_cfra k ?= cfra c)%Q eqn:E; simpl.
    + split; assumption.
    + apply Qlt_alt in E. split; [|split; assumption].
      constructor; [exact E|].
      eapply Forall_impl; [exact Hc|]. simpl. intros c' Hlt.
      eapply Qlt_trans; eauto.
    + apply Qgt_alt in E. split; [|apply IH; exact Hrest].
      apply add_key_Forall; auto.
Qed.

Lemma populate_ascending keys : forall l, ascending l -> ascending (populate keys l).
Proof.
  unfold populate. induction keys as [|k keys IH]; intros l Hl; simpl; [exact Hl|].
  apply IH. apply add_key_ascending. exact Hl.
Qed.

(** *** The queries on an ascending index *)

Lemma find_first_ascending (p : ActKeyColumn -> bool) l c :
  ascending l -> List.find p l = Some c ->
  forall c', In c' l -> p c' = true -> (cfra c <= cfra c')%Q.
Proof.
  induction l as [|x rest IH]; simpl; [discriminate|].
  intros [Hx Hrest]. destruct (p x) eqn:Px.
  - intros [= <-] c' [<-|Hin] _; [apply Qle_refl|].
    apply Qlt_le_weak. rewrite Forall_forall in Hx. apply Hx.
    apply list_elem_of_In. exact Hin.
  - intros Hf c' [<-|Hin] Pc'; [congruence|]. eapply IH; eauto.
Qed.

Lemma find_app_split {A} (p : A -> bool) l1 l2 :
  List.find p (l1 ++ l2)
  = match List.find p l1 with
    | Some y => Some y
    | None => List.find p l2
    end.
Proof.
  induction l1 as [|x l1 IH]; simpl; [reflexivity|].
  destruct (p x); [reflexivity | exact IH].
Qed.

Lemma find_last_ascending (p : ActKeyColumn -> bool) l c :
  ascending l -> List.find p (rev l) = Some c ->
  forall c', In c' l -> p c' = true -> (cfra c' <= cfra c)%Q.
Proof.
  induction l as [|x rest IH]; simpl; [discriminate|].
  intros [Hx Hrest]. rewrite find_app_split.
  destruct (List.find p (rev rest)) as [y|] eqn:F.
  - intros [= ->] c' [<-|Hin] Pc'; [|eapply IH; eauto].
    apply Qlt_le_weak. rewrite Forall_forall in Hx. apply Hx.
    apply list_elem_of_In. apply in_rev. eapply find_some. exact F.
  - simpl. destruct (p x) eqn:Px; [|discriminate].
    intros [= <-] c' [<-|Hin] Pc'; [apply Qle_refl|].
    pose proof (find_none _ _ F c') as Hn. rewrite Hn in Pc'; [discriminate|].
    apply in_rev in Hin. exact Hin.
Qed.

(** C9: on every populated index, [find_exact] returns a column at exactly
    the given time, or none when there is none; [find_next] returns the
    first column strictly after it (a column after it such that no column
    after it is earlier), or none; [find_prev] the last column strictly
    before it, or none; [find_any_between] a column strictly inside the
    range, or none; and on the index with columns at 1, 5 and 10 the five
    queries of the scenario answer 5, 10, 1, none and a column inside. *)
Theorem keylist_queries keys t min_fra max_fra :
  let keylist := populate keys ED_keylist_create in
  match ED_keylist_find_exact keylist t with
  | Some c => In c keylist /\ (cfra c == t)%Q
  | None => forall c, In c keylist -> ~ (cfra c == t)%Q
  end
  /\ match ED_keylist_find_next keylist t with
     | Some c => In c keylist /\ (t < cfra c)%Q
                 /\ forall c', In c' keylist -> (t < cfra c')%Q -> (cfra c <= cfra c')%Q
     | None => forall c, In c keylist -> ~ (t < cfra c)%Q
     end
  /\ match ED_keylist_find_prev keylist t with
     | Some c => In c keylist /\ (cfra c < t)%Q
                 /\ forall c', In c' keylist -> (cfra c' < t)%Q -> (cfra c' <= cfra c)%Q
     | None => forall c, In c keylist -> ~ (cfra c < t)%Q
     end
  /\ match ED_keylist_find_any_between keylist min_fra max_fra with
     | Some c => In c keylist /\ (min_fra < cfra c)%Q /\ (cfra c < max_fra)%Q
     | None => forall c, In c keylist -> ~ ((min_fra < cfra c)%Q /\ (cfra c < max_fra)%Q)
     end
  /\ option_map cfra (ED_keylist_find_exact scenario_index 5) = Some 5%Q
  /\ option_map cfra (ED_keylist_find_next scenario_index 5) = Some 10%Q
  /\ option_map cfra (ED_keylist_find_prev scenario_index 5) = Some 1%Q
  /\ ED_keylist_find_any_between scenario_index 5 10 = None
  /\ option_map cfra (ED_keylist_find_any_between scenario_index 0 10) = Some 1%Q
  /\ map cfra scenario_index = [1%Q; 5%Q; 10%Q].
Proof.
  intros keylist.
  assert (Hasc : ascending keylist) by (apply populate_ascending; exact I).
  split; [|split; [|split; [|split]]].
  - unfold ED_keylist_find_exact.
    destruct (List.find _ keylist) as [c|] eqn:F.
    + apply find_some in F as [Hin Hp]. apply Qeq_bool_iff in Hp. auto.
    + intros c Hin Heq. apply Qeq_bool_iff in Heq.
      pose proof (find_none _ _ F c Hin) as Hn. simpl in Hn. congruence.
  - unfold ED_keylist_find_next.
    destruct (List.find _ keylist) as [c|] eqn:F.
    + pose proof (find_some _ _ F) as [Hin Hp]. apply Qltb_lt in Hp.
      split; [exact Hin|]. split; [exact Hp|].
      intros c' Hin' Hlt. eapply (find_first_ascending _ _ _ Hasc F); [exact Hin'|].
      apply Qltb_lt. exact Hlt.
    + intros c Hin Hlt. apply Qltb_lt in Hlt.
      pose proof (find_none _ _ F c Hin) as Hn. simpl in Hn. congruence.
  - unfold ED_keylist_find_prev.
    destruct (List.find _ (rev keylist)) as [c|] eqn:F.
    + pose proof (find_some _ _ F) as [Hin Hp]. apply Qltb_lt in Hp.
      apply in_rev in Hin.
      split; [exact Hin|]. split; [exact Hp|].
      intros c' Hin' Hlt. eapply (find_last_ascending _ _ _ Hasc F); [exact Hin'|].
      apply Qltb_lt. exact Hlt.
    + intros c Hin Hlt. apply Qltb_lt in Hlt.
      apply in_rev in Hin.
      pose proof (find_none _ _ F c Hin) as Hn. simpl in Hn. congruence.
  - unfold ED_keylist_find_any_between.
    destruct (List.find _ keylist) as [c|] eqn:F.
    + apply find_some in F as [Hin Hp]. apply andb_true_iff in Hp as [H1 H2].
      apply Qltb_lt in H1, H2. auto.
    + intros c Hin [H1 H2]. apply Qltb_lt in H1, H2.
      pose proof (find_none _ _ F c Hin) as Hn. simpl in Hn.
      rewrite H1, H2 in Hn. discriminate.
  - repeat split; reflexivity.
Qed.

Lemma keylist_queries_witness :
  exists c, ED_keylist_find_next scenario_index 5 = Some c
            /\ In c scenario_index
            /\ (5 < cfra c)%Q
            /\ forall c', In c' scenario_index -> (5 < cfra c')%Q -> (cfra c <= cfra c')%Q.
Proof.
  pose proof (keylist_queries
                [key_at 5 KEYFRAME_HANDLE_NONE; key_at 10 KEYFRAME_HANDLE_NONE;
                 key_at 1 KEYFRAME_HANDLE_NONE] 5 0 10) as (_ & Hnext & _).
  simpl in Hnext. eexists. split; [reflexivity | exact Hnext].
Defined.

(** *** Handle priority *)

Lemma handle_value_nonneg h : (0 <= handle_value h)%Z.
Proof.
  destruct h; simpl; lia.
Qed.

Lemma max_handle_nonneg keys : (0 <= max_handle keys)%Z.
Proof.
  induction keys as [|k keys IH]; simpl; lia.
Qed.

Lemma max_handle_app l1 l2 :
  max_handle (l1 ++ l2) = Z.max (max_handle l1) (max_handle l2).
Proof.
  induction l1 as [|k l1 IH]; simpl.
  - pose proof (max_handle_nonneg l2). lia.
  - rewrite IH. lia.
Qed.

Lemma contributions_app t l1 l2 :
  contributions t (l1 ++ l2) = contributions t l1 ++ contributions t l2.
Proof.
  unfold contributions. apply List.filter_app.
Qed.

Lemma contributions_none t keys :
  (forall k, In k keys -> ~ (k_cfra k == t)%Q) -> contributions t keys = [].
Proof.
  induction keys as [|k keys IH]; intros H; simpl; [reflexivity|].
  destruct (Qeq_bool (k_cfra k) t) eqn:E.
  - apply Qeq_bool_iff in E. exfalso. apply (H k); [left; reflexivity | exact E].
  - apply IH. intros k' Hin. apply H. right. exact Hin.
Qed.

(** Where the columns of [add_key k l] come from, on an ascending index. *)
Lemma add_key_origin k l c' :
  ascending l -> In c' (add_key k l) ->
  (c' = new_column k /\ forall c, In c l -> ~ (cfra c == k_cfra k)%Q)
  \/ (exists c, In c l /\ (cfra c == k_cfra k)%Q /\ c' = update_column k c)
  \/ (In c' l /\ ~ (cfra c' == k_cfra k)%Q).
Proof.
  induction l as [|c rest IH]; simpl.
  - intros _ [<-|[]]. left. split; [reflexivity|]. intros c [].
  - intros [Hc Hrest]. rewrite Forall_forall in Hc.
    assert (Hafter : forall x, In x rest -> (cfra c < cfra x)%Q).
    { intros x Hx. apply Hc. apply list_elem_of_In. exact Hx. }
    destruct (k_cfra k ?= cfra c)%Q eqn:E; simpl.
    + apply Qeq_alt in E. intros [<-|Hin].
      * right. left. exists c. split; [left; reflexivity|].
        split; [symmetry; exact E | reflexivity].
      * right. right. split; [right; exact Hin|].
        intros Heq. apply Hafter in Hin. rewrite Heq, E in Hin.
        exact (Qlt_irrefl _ Hin).
    + apply Qlt_alt in E. intros [<-|[<-|Hin]].
      * left. split; [reflexivity|]. intros x [<-|Hx] Heq.
        -- rewrite Heq in E. exact (Qlt_irrefl _ E).
        -- apply Hafter in Hx. rewrite Heq in Hx.
           exact (Qlt_irrefl _ (Qlt_trans _ _ _ E Hx)).
      * right. right. split; [left; reflexivity|]. intros Heq.
        rewrite Heq in E. exact (Qlt_irrefl _ E).
      * right. right. split; [right; exact Hin|]. intros Heq.
        apply Hafter in Hin. rewrite Heq in Hin.
        exact (Qlt_irrefl _ (Qlt_trans _ _ _ E Hin)).
    + apply Qgt_alt in E. intros [<-|Hin].
      * right. right. split; [left; reflexivity|]. intros Heq.
        rewrite Heq in E. exact (Qlt_irrefl _ E).
      * destruct (IH Hrest Hin) as [[-> Hno]|[(x & Hx & Heq & ->)|[Hin' Hne]]].
        -- left. split; [reflexivity|]. intros x [<-|Hx]; [|apply Hno; exact Hx].
           intros Heq. rewrite Heq in E. exact (Qlt_irrefl _ E).
        -- right. left. exists x. split; [right; exact Hx|]. split; [exact Heq|reflexivity].
        -- right. right. split; [right; exact Hin' | exact Hne].
Qed.

(** Every time that had a column keeps one, and the new key's time has one. *)
Lemma add_key_covers k l :
  (exists c, In c (add_key k l) /\ (cfra c == k_cfra k)%Q)
  /\ forall t, (exists c, In c l /\ (cfra c == t)%Q) ->
               exists c, In c (add_key k l) /\ (cfra c == t)%Q.
Proof.
  induction l as [|c rest [IH1 IH2]]; simpl.
  - split; [exists (new_column k); split; [left; reflexivity | reflexivity]|].
    intros t (c & [] & _).
  - destruct (k_cfra k ?= cfra c)%Q eqn:E; simpl.
    + apply Qeq_alt in E. split.
      * exists (update_column k c). split; [left; reflexivity|]. simpl. symmetry. exact E.
      * intros t (x & [<-|Hx] & Heq).
        -- exists (update_column k c). split; [left; reflexivity | exact Heq].
        -- exists x. split; [right; exact Hx | exact Heq].
    + split.
      * exists (new_column k). split; [left; reflexivity | reflexivity].
      * intros t (x & Hx & Heq). exists x. split; [right; exact Hx | exact Heq].
    + split.
      * destruct IH1 as (x & Hx & Heq). exists x. split; [right; exact Hx | exact Heq].
      * intros t (x & [<-|Hx] & Heq).
        -- exists c. split; [left; reflexivity | exact Heq].
        -- destruct (IH2 t) as (y & Hy & Hyt); [exists x; auto|].
           exists y. split; [right; exact Hy | exact Hyt].
Qed.

(** The invariant of population from the empty index: ascending order, each
    column carrying the highest handle value of the keys at its time, and a
    column for every key. *)
Lemma populate_handles keys :
  let keylist := populate keys ED_keylist_create in
  ascending keylist
  /\ (forall c, In c keylist ->
        handle_type c = max_handle (contributions (cfra c) keys))
  /\ (forall k, In k keys -> exists c, In c keylist /\ (cfra c == k_cfra k)%Q).
Proof.
  induction keys as [|k keys IH] using rev_ind; simpl.
  - split; [exact I|]. split; [intros c []|intros k []].
  - unfold populate in *. rewrite fold_left_app. simpl.
    set (l := fold_left (fun l k => add_key k l) keys ED_keylist_create) in *.
    destruct IH as (Hasc & Hh & Hcov).
    split; [apply add_key_ascending; exact Hasc|]. split.
    + intros c' Hin. rewrite contributions_app, max_handle_app.
      destruct (add_key_origin k l c' Hasc Hin)
        as [[-> Hno]|[(c & Hc & Heq & ->)|[Hin' Hne]]]; simpl.
      * rewrite contributions_none.
        -- rewrite Qeq_bool_refl. simpl. pose proof (handle_value_nonneg (k_handle_type k)).
           lia.
        -- intros k0 Hk0 Heq. destruct (Hcov k0 Hk0) as (c & Hc & Hceq).
           apply (Hno c Hc). rewrite Hceq. exact Heq.
      * rewrite (Hh c Hc).
        assert (E : Qeq_bool (k_cfra k) (cfra c) = true)
          by (apply Qeq_bool_iff; symmetry; exact Heq).
        rewrite E. simpl. pose proof (handle_value_nonneg (k_handle_type k)). lia.
      * rewrite (Hh c' Hin').
        assert (E : Qeq_bool (k_cfra k) (cfra c') = false).
        { destruct (Qeq_bool (k_cfra k) (cfra c')) eqn:E; [|reflexivity].
          apply Qeq_bool_iff in E. exfalso. apply Hne. symmetry. exact E. }
        rewrite E. simpl. pose proof (max_handle_nonneg (contributions (cfra c') keys)).
        lia.
    + intros k0 Hk0. apply in_app_or in Hk0 as [Hk0|[<-|[]]].
      * apply (proj2 (add_key_covers k l)). apply Hcov. exact Hk0.
      * apply (proj1 (add_key_covers k l)).
Qed.

(** C10: the handle categories are strictly ordered none < auto-clamped <
    auto < vector < aligned < free by their enumerator values; every column
    of an index populated from any keys carries the highest value among the
    keys contributed at its time; and keys of two curves at one time marked
    AUTO and VECTOR give one column marked VECTOR, in either order. *)
Theorem handle_priority keys :
  (handle_value KEYFRAME_HANDLE_NONE < handle_value KEYFRAME_HANDLE_AUTO_CLAMP
   < handle_value KEYFRAME_HANDLE_AUTO)%Z
  /\ (handle_value KEYFRAME_HANDLE_AUTO < handle_value KEYFRAME_HANDLE_VECTOR
      < handle_value KEYFRAME_HANDLE_ALIGNED)%Z
  /\ (handle_value KEYFRAME_HANDLE_ALIGNED < handle_value KEYFRAME_HANDLE_FREE)%Z
  /\ (forall c, In c (populate keys ED_keylist_create) ->
        handle_type c = max_handle (contributions (cfra c) keys)
        /\ (forall k, In k (contributions (cfra c) keys) ->
              (handle_value (k_handle_type k) <= handle_type c)%Z))
  /\ (forall t,
        map handle_type
          (populate [key_at t KEYFRAME_HANDLE_AUTO; key_at t KEYFRAME_HANDLE_VECTOR]
             ED_keylist_create)
        = [handle_value KEYFRAME_HANDLE_VECTOR]
        /\ map handle_type
             (populate [key_at t KEYFRAME_HANDLE_VECTOR; key_at t KEYFRAME_HANDLE_AUTO]
                ED_keylist_create)
           = [handle_value KEYFRAME_HANDLE_VECTOR]).
Proof.
  split; [simpl; lia|]. split; [simpl; lia|]. split; [simpl; lia|]. split.
  - intros c Hin. destruct (populate_handles keys) as (_ & Hh & _).
    rewrite (Hh c Hin). split; [reflexivity|].
    generalize (contributions (cfra c) keys). intros l k Hk.
    induction l as [|x l IH]; simpl; [destruct Hk|].
    destruct Hk as [<-|Hk]; [lia|]. specialize (IH Hk). lia.
  - intros t. unfold populate. simpl.
    assert (E : (t ?= t)%Q = Eq) by (apply Qeq_alt; reflexivity).
    rewrite E. simpl. split; reflexivity.
Qed.

Lemma handle_priority_witness :
  handle_type (update_column (key_at 3 KEYFRAME_HANDLE_VECTOR)
                 (new_column (key_at 3 KEYFRAME_HANDLE_AUTO)))
  = handle_value KEYFRAME_HANDLE_VECTOR.
Proof.
  exact (proj1 (proj1 (proj2 (proj2 (proj2
           (handle_priority [key_at 3 KEYFRAME_HANDLE_AUTO;
                             key_at 3 KEYFRAME_HANDLE_VECTOR]))))
           (update_column (key_at 3 KEYFRAME_HANDLE_VECTOR)
              (new_column (key_at 3 KEYFRAME_HANDLE_AUTO)))
           (or_introl eq_refl))).
Defined.

End KeylistProofs.

(* ===================================================================== *)
(** ** Further properties of the stage reader                             *)
(* ===================================================================== *)

Module UsdMore.
Import Pxr Usd UsdScenes UsdNotions UsdProofs.
Local Open Scope list_scope.

(** *** Reading the store after a write *)

Lemma update_reader_lookup f p s h :
  heap (update_reader f p s) !! h
  = if decide (h = p) then fmap f <$> heap s !! h else heap s !! h.
Proof.
  unfold update_reader, write_reader.
  destruct (heap s !! p) as [[r|]|] eqn:E; simpl.
  - destruct (decide (h = p)) as [->|Hne].
    + rewrite list_lookup_insert_eq by (eapply lookup_lt_Some; eauto).
      rewrite E. reflexivity.
    + apply list_lookup_insert_ne. congruence.
  - destruct (decide (h = p)) as [->|Hne]; [rewrite E|]; reflexivity.
  - destruct (decide (h = p)) as [->|Hne]; [rewrite E|]; reflexivity.
Qed.

Lemma update_reader_fields f p s :
  readers_ (update_reader f p s) = readers_ s
  /\ bmain (update_reader f p s) = bmain s
  /\ length (heap (update_reader f p s)) = length (heap s).
Proof.
  unfold update_reader, write_reader.
  destruct (heap s !! p) as [[r|]|]; simpl; auto using length_insert.
Qed.

Lemma set_parents_cons c crs n s :
  set_parents (c :: crs) n s = set_parents crs n (update_reader (set_parent n) c s).
Proof.
  reflexivity.
Qed.

Lemma set_parents_fields crs n :
  forall s,
    readers_ (set_parents crs n s) = readers_ s
    /\ bmain (set_parents crs n s) = bmain s
    /\ length (heap (set_parents crs n s)) = length (heap s).
Proof.
  induction crs as [|c crs IH]; intros s; [auto|].
  rewrite set_parents_cons.
  destruct (IH (update_reader (set_parent n) c s)) as (R & B & L).
  destruct (update_reader_fields (set_parent n) c s) as (R' & B' & L').
  repeat split; congruence.
Qed.

(** After the loop that sets the parents, exactly the child readers have the
    new parent, and nothing else about any reader changed. *)
Lemma set_parents_lookup crs n :
  forall s h,
    heap (set_parents crs n s) !! h
    = if decide (h ∈ crs) then fmap (set_parent n) <$> heap s !! h else heap s !! h.
Proof.
  induction crs as [|c crs IH]; intros s h.
  - destruct (decide (h ∈ [])) as [Hin|_]; [inversion Hin | reflexivity].
  - rewrite set_parents_cons, IH, update_reader_lookup.
    destruct (decide (h ∈ crs)) as [Hin|Hn], (decide (h = c)) as [->|Hne];
      destruct (decide (_ ∈ c :: crs)) as [Hin'|Hn']; try reflexivity.
    + destruct (heap s !! c) as [[r|]|]; reflexivity.
    + exfalso. apply Hn'. left.
    + exfalso. apply Hn'. right. exact Hin.
    + exfalso. apply Hn'. left.
    + exfalso. apply elem_of_cons in Hin' as [?|?]; contradiction.
Qed.

(** *** The three ways [collect_readers(bmain, prim)] ends *)

Lemma after_children_cases params prim crs s ret s' :
  after_children params prim crs s = (ret, s') ->
  (ret = None /\ s' = s)
  \/ (exists c r,
        crs = [c] /\ IsPseudoRoot prim = false
        /\ heap s !! c = Some (Some r) /\ merge_conditions r = true
        /\ ret = Some c /\ s' = write_reader c (set_use_parent_xform true r) s)
  \/ (exists k,
        IsPseudoRoot prim = false
        /\ fst (try_merge crs s) = false
        /\ create_reader_if_allowed params prim = Some k
        /\ ret = Some (length (heap s)) /\ s' = registered_store k prim crs s).
Proof.
  unfold after_children. destruct (IsPseudoRoot prim).
  { intros [= <- <-]. left. auto. }
  destruct (try_merge crs s) as [merged sm] eqn:TM. destruct merged.
  - destruct (try_merge_true crs s) as (c & r & -> & Hr & Hc & Hsm);
      [rewrite TM; reflexivity|].
    rewrite TM in Hsm. simpl in Hsm. subst sm. intros [= <- <-].
    right. left. exists c, r. repeat split; auto.
    unfold merged_store, update_reader. rewrite Hr. reflexivity.
  - pose proof (try_merge_false crs s) as Hsm. rewrite TM in Hsm. simpl in Hsm.
    rewrite Hsm by reflexivity.
    destruct (create_reader_if_allowed params prim) as [k|] eqn:Ek.
    + rewrite (create_and_register_eq _ _ _ _ k Ek). intros [= <- <-].
      right. right. exists k. auto.
    + unfold create_and_register. rewrite Ek. intros [= <- <-]. left. auto.
Qed.

(** A relation between stores that is reflexive, transitive and holds across
    the end of every call holds across the whole traversal. *)
Lemma traversal_rel params (R : Store -> Store -> Prop) :
  (forall s, R s s) ->
  (forall a b c, R a b -> R b c -> R a c) ->
  (forall prim crs s ret s',
     passes_filters params prim = true ->
     after_children params prim crs s = (ret, s') -> R s s') ->
  forall node parent s ret s',
    collect_readers_prim params parent node s = (ret, s') -> R s s'.
Proof.
  intros Hrefl Htrans Hend.
  assert (Hloop : forall collect fp cs,
            Forall (fun c => forall s ret s', collect c s = (ret, s') -> R s s') cs ->
            forall s crs s1, collect_children collect fp cs s = (crs, s1) -> R s s1).
  { intros collect fp cs. induction 1 as [|c rest Hc Hrest IH]; intros s crs s1; simpl.
    - intros [= <- <-]. apply Hrefl.
    - destruct (fp (node_data c)); [|apply IH].
      destruct (collect c s) as [r sa] eqn:E1.
      destruct (collect_children collect fp rest sa) as [rs sb] eqn:E2.
      intros [= <- <-]. eapply Htrans; eauto. }
  induction node as [d children IH] using PrimNode_forall_ind.
  intros parent s ret s'. simpl.
  destruct (passes_filters params (Prim d parent)) eqn:Hf; simpl.
  - destruct (collect_children _ _ children s) as [crs s1] eqn:E.
    intros Hafter. eapply Htrans; [|eapply Hend; eauto].
    eapply Hloop; [|exact E].
    eapply Forall_impl; [exact IH|]. simpl. intros c Hc. apply Hc.
  - intros [= <- <-]. apply Hrefl.
Qed.

(** *** The traversal only appends *)

Lemma grows_by_refl s : grows_by s s.
Proof.
  exists []. simpl. rewrite app_nil_r. repeat split; auto.
Qed.

Lemma grows_by_trans a b c : grows_by a b -> grows_by b c -> grows_by a c.
Proof.
  intros (o1 & H1 & R1 & B1 & F1) (o2 & H2 & R2 & B2 & F2).
  exists (o1 ++ o2). rewrite length_app. repeat split; try lia.
  - rewrite B2, B1, app_assoc. reflexivity.
  - apply Forall_app. auto.
Qed.

Lemma after_children_grows params prim crs s ret s' :
  after_children params prim crs s = (ret, s') -> grows_by s s'.
Proof.
  intros H. destruct (after_children_cases _ _ _ _ _ _ H)
    as [[_ ->]|[(c & r & _ & _ & _ & _ & _ & ->)|(k & _ & _ & _ & _ & ->)]].
  - apply grows_by_refl.
  - exists []. unfold write_reader; simpl. rewrite length_insert, app_nil_r.
    repeat split; auto.
  - unfold registered_store.
    match goal with |- grows_by _ (set_parents _ _ ?s0) =>
      destruct (set_parents_fields crs (length (heap s)) s0) as (R & B & L) end.
    eexists [_]. rewrite R, B, L. simpl. rewrite !length_app. simpl.
    repeat split; auto.
Qed.

Lemma collect_readers_prim_grows params node parent s ret s' :
  collect_readers_prim params parent node s = (ret, s') -> grows_by s s'.
Proof.
  apply (traversal_rel params grows_by).
  - apply grows_by_refl.
  - apply grows_by_trans.
  - intros prim crs s0 ret0 s0' _. apply after_children_grows.
Qed.

(** X1: the traversal of a prim only appends: the readers that existed
    before are as they were, the registry and the host document keep their
    entries and grow at the end, by as many entries each as readers were
    allocated, and every new host object was created at time 0. *)
Theorem traversal_appends params parent node s :
  exists regs obs,
    readers_ (snd (collect_readers_prim params parent node s)) = readers_ s ++ regs
    /\ bmain (snd (collect_readers_prim params parent node s)) = bmain s ++ obs
    /\ length regs = length obs
    /\ length (heap (snd (collect_readers_prim params parent node s)))
       = length (heap s) + length obs
    /\ Forall (fun o => ob_time o = 0%Q) obs
    /\ forall h, h < length (heap s) ->
         heap (snd (collect_readers_prim params parent node s)) !! h = heap s !! h.
Proof.
  destruct (collect_readers_prim params parent node s) as [ret s'] eqn:E. simpl.
  destruct (collect_readers_prim_grows _ _ _ _ _ _ E) as (obs & H & R & B & F).
  destruct (collect_readers_prim_post _ _ _ _ _ _ E)
    as ([_ U] & (regs & Hr & _ & _) & _).
  exists regs, obs. repeat split; auto.
  rewrite Hr, length_app in R. lia.
Qed.

(** *** What is registered *)

Lemma reader_ok_fields params bm bm' r r' :
  prim_ r' = prim_ r -> reader_class r' = reader_class r -> object_ r' = object_ r ->
  (forall o x, bm !! o = Some x -> bm' !! o = Some x) ->
  reader_ok params bm r -> reader_ok params bm' r'.
Proof.
  intros Hp Hc Ho Hbm (H1 & H2 & H3 & o & H4 & H5).
  unfold reader_ok, host_object. rewrite Hp, Hc, Ho.
  repeat split; auto. exists o. split; [exact H4|]. apply Hbm. exact H5.
Qed.

Lemma well_registered_write params c r r' s :
  heap s !! c = Some (Some r) ->
  prim_ r' = prim_ r -> reader_class r' = reader_class r -> object_ r' = object_ r ->
  well_registered params s -> well_registered params (write_reader c r' s).
Proof.
  intros Hr Hp Hc Ho [W1 W2].
  pose proof (lookup_lt_Some _ _ _ Hr) as Hlt.
  assert (Hlook : forall h x, heap (write_reader c r' s) !! h = Some (Some x) ->
            exists y, heap s !! h = Some (Some y)
                      /\ prim_ x = prim_ y /\ reader_class x = reader_class y
                      /\ object_ x = object_ y).
  { intros h x. unfold write_reader; simpl. destruct (decide (h = c)) as [->|Hne].
    - rewrite list_lookup_insert_eq by exact Hlt. intros [= <-]. exists r. auto.
    - rewrite list_lookup_insert_ne by congruence. intros Hx. exists x. auto. }
  split.
  - intros h Hin. destruct (W1 h Hin) as (y & Hy & Hok).
    unfold write_reader; simpl. destruct (decide (h = c)) as [->|Hne].
    + rewrite list_lookup_insert_eq by exact Hlt. exists r'. split; [reflexivity|].
      assert (y = r) by congruence. subst y.
      eapply reader_ok_fields; eauto.
    + rewrite list_lookup_insert_ne by congruence. exists y. auto.
  - intros h1 h2 x1 x2 Hin1 Hin2 Hx1 Hx2 Heq.
    destruct (Hlook _ _ Hx1) as (y1 & Hy1 & _ & _ & E1).
    destruct (Hlook _ _ Hx2) as (y2 & Hy2 & _ & _ & E2).
    apply (W2 h1 h2 y1 y2); auto. congruence.
Qed.

Lemma well_registered_update params f p s :
  (forall r, prim_ (f r) = prim_ r /\ reader_class (f r) = reader_class r
             /\ object_ (f r) = object_ r) ->
  well_registered params s -> well_registered params (update_reader f p s).
Proof.
  intros Hf W. unfold update_reader.
  destruct (heap s !! p) as [[r|]|] eqn:E; auto.
  destruct (Hf r) as (? & ? & ?). eapply well_registered_write; eauto.
Qed.

Lemma well_registered_set_parents params crs n :
  forall s, well_registered params s -> well_registered params (set_parents crs n s).
Proof.
  induction crs as [|c crs IH]; intros s W; [exact W|].
  rewrite set_parents_cons. apply IH. apply well_registered_update; [|exact W].
  intros r. repeat split; reflexivity.
Qed.

Lemma well_registered_append params k prim s :
  create_reader_if_allowed params prim = Some k ->
  passes_filters params prim = true ->
  IsPseudoRoot prim = false ->
  well_registered params s ->
  well_registered params
    {| readers_ := readers_ s ++ [Some (length (heap s))];
       heap := heap s ++ [Some {| reader_class := k; prim_ := prim; parent_reader_ := None;
                                  refcount_ := 1; use_parent_xform_ := false;
                                  object_ := Some (length (bmain s)) |}];
       bmain := bmain s ++ [ {| ob_name := name (prim_data prim); ob_class := k;
                                ob_time := 0 |} ] |}.
Proof.
  intros Ek Hf Hroot [W1 W2].
  assert (Hold : forall h, Some h ∈ readers_ s -> h < length (heap s)).
  { intros h Hin. destruct (W1 h Hin) as (y & Hy & _). eapply lookup_lt_Some; eauto. }
  split; simpl.
  - intros h Hin. apply elem_of_app in Hin as [Hin|Hin].
    + destruct (W1 h Hin) as (y & Hy & Hok). exists y.
      split; [apply lookup_app_l_Some; exact Hy|].
      eapply reader_ok_fields; [reflexivity | reflexivity | reflexivity | | exact Hok].
      intros o x. apply lookup_app_l_Some.
    + apply list_elem_of_singleton in Hin. injection Hin as ->.
      eexists. split; [apply lookup_snoc_last|].
      unfold reader_ok, host_object; simpl. repeat split; auto.
      eexists. split; [reflexivity|]. apply lookup_snoc_last.
  - intros h1 h2 x1 x2 Hin1 Hin2 Hx1 Hx2 Heq.
    apply elem_of_app in Hin1 as [Hin1|Hin1], Hin2 as [Hin2|Hin2].
    + pose proof (Hold _ Hin1). pose proof (Hold _ Hin2).
      rewrite lookup_app_l in Hx1, Hx2 by assumption.
      apply (W2 h1 h2 x1 x2); auto.
    + apply list_elem_of_singleton in Hin2. injection Hin2 as ->.
      pose proof (Hold _ Hin1). rewrite lookup_app_l in Hx1 by assumption.
      rewrite lookup_snoc_last in Hx2. injection Hx2 as <-. simpl in Heq.
      destruct (W1 h1 Hin1) as (y & Hy & _ & _ & _ & o & Ho & Hbm).
      assert (y = x1) by congruence. subst y.
      apply lookup_lt_Some in Hbm. rewrite Ho in Heq. injection Heq as ->. lia.
    + apply list_elem_of_singleton in Hin1. injection Hin1 as ->.
      pose proof (Hold _ Hin2). rewrite lookup_app_l in Hx2 by assumption.
      rewrite lookup_snoc_last in Hx1. injection Hx1 as <-. simpl in Heq.
      destruct (W1 h2 Hin2) as (y & Hy & _ & _ & _ & o & Ho & Hbm).
      assert (y = x2) by congruence. subst y.
      apply lookup_lt_Some in Hbm. rewrite Ho in Heq. injection Heq as <-. lia.
    + apply list_elem_of_singleton in Hin1, Hin2. congruence.
Qed.

(** The traversal keeps the registry well-formed. *)
Lemma collect_readers_prim_well_registered params node parent s ret s' :
  collect_readers_prim params parent node s = (ret, s') ->
  well_registered params s -> well_registered params s'.
Proof.
  apply (traversal_rel params
           (fun a b => well_registered params a -> well_registered params b)); auto.
  intros prim crs s0 ret0 s0' Hf H W.
  destruct (after_children_cases _ _ _ _ _ _ H)
    as [[_ ->]|[(c & r & _ & _ & Hr & _ & _ & ->)|(k & Hroot & _ & Ek & _ & ->)]].
  - exact W.
  - eapply well_registered_write; eauto.
  - unfold registered_store. apply well_registered_set_parents.
    apply well_registered_append; auto.
Qed.

Lemma collect_readers_well_registered a stage :
  stage_ a = Some stage ->
  well_registered (params_ a) (store (collect_readers a)).
Proof.
  intros Hs. unfold collect_readers. rewrite Hs.
  destruct (traversal_root stage (prim_path_mask (params_ a))) as [[root node] w].
  destruct (collect_readers_prim (params_ a) (GetParent root) node
              (clear_readers (store a))) as [ret s'] eqn:E.
  simpl. eapply collect_readers_prim_well_registered; [exact E|].
  split; simpl.
  - intros h Hin. inversion Hin.
  - intros h1 h2 r1 r2 Hin. inversion Hin.
Qed.

Lemma selected_is_imageable params prim k :
  create_reader_if_allowed params prim = Some k -> IsA prim UsdGeomImageable = true.
Proof.
  unfold create_reader_if_allowed, IsA.
  destruct (typeName (prim_data prim)) as [t|];
    [destruct t|];
    destruct (import_cameras params), (import_curves params), (import_meshes params),
      (import_lights params), (import_volumes params);
    vm_compute; congruence.
Qed.

(** X2: after [collect_readers] on a valid stage every registered pointer is
    non-null and points to a live reader whose class is the one
    [create_reader_if_allowed] selects for its prim; that prim is imageable,
    passed the purpose and visibility filters and is not the pseudo-root. *)
Theorem registered_readers_match_prims a stage :
  stage_ a = Some stage ->
  forall x, x ∈ readers_ (store (collect_readers a)) ->
    exists h r,
      x = Some h
      /\ heap (store (collect_readers a)) !! h = Some (Some r)
      /\ create_reader_if_allowed (params_ a) (prim_ r) = Some (reader_class r)
      /\ IsA (prim_ r) UsdGeomImageable = true
      /\ include_by_purpose (params_ a) (prim_ r) = true
      /\ include_by_visibility (params_ a) (prim_ r) = true
      /\ IsPseudoRoot (prim_ r) = false.
Proof.
  intros Hs x Hx.
  destruct (collect_readers_registry a stage Hs) as [_ P].
  destruct (P x Hx) as (h & -> & _).
  destruct (collect_readers_well_registered a stage Hs) as [W _].
  destruct (W h Hx) as (r & Hr & Hk & Hf & Hroot & _).
  pose proof (selected_is_imageable _ _ _ Hk) as Him.
  unfold passes_filters in Hf. rewrite Him in Hf. apply andb_true_iff in Hf as [? ?].
  exists h, r. repeat split; auto.
Qed.

Lemma registered_readers_match_prims_witness :
  exists h r,
    Some 1 = Some h
    /\ heap (store (collect_readers (adapter_of xform_mesh_ops_tree all_params))) !! h
       = Some (Some r)
    /\ create_reader_if_allowed all_params (prim_ r) = Some (reader_class r)
    /\ IsA (prim_ r) UsdGeomImageable = true
    /\ include_by_purpose all_params (prim_ r) = true
    /\ include_by_visibility all_params (prim_ r) = true
    /\ IsPseudoRoot (prim_ r) = false.
Proof.
  apply (registered_readers_match_prims (adapter_of xform_mesh_ops_tree all_params)
           (stage_of xform_mesh_ops_tree) eq_refl (Some 1)).
  vm_compute. right. left.
Defined.

(** *** The hierarchy the traversal builds *)

Lemma hier_ok_transfer s s' h x :
  (forall y, y ∈ readers_ s -> y ∈ readers_ s') ->
  (forall p rp, heap s !! p = Some (Some rp) ->
     exists rp', heap s' !! p = Some (Some rp') /\ prim_ rp' = prim_ rp) ->
  hier_ok s h x -> hier_ok s' h x.
Proof.
  intros Hreg Hlive [Hflag Hpar]. split; [exact Hflag|].
  intros p Hp. destruct (Hpar p Hp) as (Hlt & Hin & rp & Hrp & Ha).
  split; [exact Hlt|]. split; [apply Hreg; exact Hin|].
  destruct (Hlive p rp Hrp) as (rp' & Hrp' & Hprim).
  exists rp'. split; [exact Hrp'|]. congruence.
Qed.

Lemma hier_post_nil ctx s : hier_post ctx s [] s.
Proof.
  split.
  - intros h Hin. inversion Hin.
  - intros h r [? ?]. lia.
Qed.

Lemma hier_post_seq ctx s s1 s2 l1 d1 l2 d2 :
  traversal_post s l1 d1 s1 -> traversal_post s1 l2 d2 s2 ->
  hier_post ctx s l1 s1 -> hier_post ctx s1 l2 s2 ->
  hier_post ctx s (l1 ++ l2) s2.
Proof.
  intros (F1 & _ & _ & Ret1 & _) ([L2 U2] & (regs2 & R2 & _) & _) [A1 B1] [A2 B2].
  destruct F1 as [L1 U1].
  split.
  - intros h Hin. apply elem_of_app in Hin as [Hin|Hin]; [|apply A2; exact Hin].
    destruct (A1 h Hin) as (r & a & Hr & Ha & Hg).
    exists r, a. rewrite U2 by (eapply lookup_lt_Some; eauto). auto.
  - intros h r [Hlo Hhi] Hr.
    destruct (decide (h < length (heap s1))) as [Hlt|Hge].
    + rewrite U2 in Hr by exact Hlt.
      eapply hier_ok_transfer; [| |apply (B1 h r); [split; lia | exact Hr]].
      * intros y Hy. rewrite R2. apply elem_of_app. left. exact Hy.
      * intros p rp Hp. exists rp. rewrite U2 by (eapply lookup_lt_Some; eauto). auto.
    + apply B2; [split; lia | exact Hr].
Qed.

Lemma merge_conditions_merged_ok r :
  merge_conditions r = true ->
  use_parent_xform_ r = false /\ merged_ok (set_use_parent_xform true r).
Proof.
  unfold merge_conditions, merged_ok, prim_has_xform_ops. simpl.
  intros H. repeat (apply andb_true_iff in H as [H ?]).
  repeat match goal with
         | H : negb _ = true |- _ => apply negb_true_iff in H
         end.
  auto 10.
Qed.

Lemma after_children_hier params prim s crs d s1 ret s' :
  traversal_post s crs d s1 ->
  hier_post (Some prim) s crs s1 ->
  after_children params prim crs s1 = (ret, s') ->
  hier_post (GetParent prim) s (option_list ret) s'.
Proof.
  intros Hpost [A B] H. pose proof Hpost as ([L U] & _ & _ & Ret & _).
  destruct (after_children_cases _ _ _ _ _ _ H)
    as [[-> ->]|[(c & r & -> & _ & Hr & Hm & -> & ->)|(k & _ & _ & _ & -> & ->)]].
  - (* nothing returned *)
    split; [intros h Hin; inversion Hin | exact B].
  - (* merged *)
    destruct (merge_conditions_merged_ok r Hm) as [Hflag Hok].
    destruct (Ret c) as [Hfresh (r0 & Hr0 & Hp0 & _)]; [left|].
    assert (r0 = r) by congruence. subst r0.
    destruct (A c) as (r1 & a & Hr1 & Ha & Hg); [left|].
    assert (r1 = r) by congruence. subst r1.
    unfold anchor in Ha. rewrite Hflag in Ha. injection Ha as <-.
    pose proof (lookup_lt_Some _ _ _ Hr) as Hlt.
    assert (Hlive : forall p rp, heap s1 !! p = Some (Some rp) ->
              exists rp', heap (write_reader c (set_use_parent_xform true r) s1) !! p
                          = Some (Some rp') /\ prim_ rp' = prim_ rp).
    { intros p rp Hp. unfold write_reader; simpl.
      destruct (decide (p = c)) as [->|Hne].
      - rewrite list_lookup_insert_eq by exact Hlt. eexists. split; [reflexivity|].
        simpl. congruence.
      - rewrite list_lookup_insert_ne by congruence. eauto. }
    split.
    + intros h Hin. apply list_elem_of_singleton in Hin as ->.
      exists (set_use_parent_xform true r), prim. unfold write_reader; simpl.
      rewrite list_lookup_insert_eq by exact Hlt.
      split; [reflexivity|]. split; [|reflexivity].
      unfold anchor. simpl. exact Hg.
    + intros h x [Hlo Hhi]. unfold write_reader in Hhi |- *; simpl in Hhi |- *.
      rewrite length_insert in Hhi.
      destruct (decide (h = c)) as [->|Hne].
      * rewrite list_lookup_insert_eq by exact Hlt. intros [= <-].
        split; [intros _; exact Hok|]. simpl. rewrite Hp0. discriminate.
      * rewrite list_lookup_insert_ne by congruence. intros Hx.
        eapply hier_ok_transfer; [| exact Hlive | apply (B h x); [split; lia | exact Hx]].
        auto.
  - (* the prim's own reader *)
    set (n := length (heap s1)).
    set (R := {| reader_class := k; prim_ := prim; parent_reader_ := None;
                 refcount_ := 1; use_parent_xform_ := false;
                 object_ := Some (length (bmain s1)) |}).
    assert (Hn : n ∉ crs).
    { intros Hin. destruct (Ret _ Hin) as [[? ?] _]. unfold n in *. lia. }
    unfold registered_store. fold n. fold R.
    match goal with |- hier_post _ _ _ (set_parents _ _ ?s0) => set (sa := s0) end.
    destruct (set_parents_fields crs n sa) as (HR & _ & HL).
    assert (Hlook : forall h, heap (set_parents crs n sa) !! h
              = if decide (h ∈ crs) then fmap (set_parent n) <$> (heap s1 ++ [Some R]) !! h
                else (heap s1 ++ [Some R]) !! h).
    { intros h. apply set_parents_lookup. }
    assert (HnR : heap (set_parents crs n sa) !! n = Some (Some R)).
    { rewrite Hlook. destruct (decide (n ∈ crs)); [contradiction|]. apply lookup_snoc_last. }
    assert (Hlive : forall p rp, heap s1 !! p = Some (Some rp) ->
              exists rp', heap (set_parents crs n sa) !! p = Some (Some rp')
                          /\ prim_ rp' = prim_ rp).
    { intros p rp Hp. rewrite Hlook, (lookup_app_l_Some _ _ _ _ Hp).
      destruct (decide (p ∈ crs)); simpl; eauto. }
    assert (Hreg : forall y, y ∈ readers_ s1 -> y ∈ readers_ (set_parents crs n sa)).
    { intros y Hy. rewrite HR. simpl. apply elem_of_app. left. exact Hy. }
    split.
    + intros h Hin. apply list_elem_of_singleton in Hin as ->.
      exists R, prim. auto.
    + intros h x [Hlo Hhi]. rewrite HL in Hhi. simpl in Hhi.
      rewrite length_app in Hhi. simpl in Hhi. fold n in Hhi.
      destruct (decide (h = n)) as [->|Hne].
      * rewrite HnR. intros [= <-]. split; simpl; intros; discriminate.
      * assert (Hlt : h < length (heap s1)) by (unfold n in *; lia).
        rewrite Hlook, lookup_app_l by exact Hlt.
        destruct (decide (h ∈ crs)) as [Hin|Hnin].
        -- destruct (Ret h Hin) as [Hfresh (r & Hr & _)].
           destruct (A h Hin) as (r1 & a & Hr1 & Ha & Hg).
           assert (r1 = r) by congruence. subst r1.
           rewrite Hr. simpl. intros [= <-].
           destruct (B h r Hfresh Hr) as [Hflag _].
           split; [exact Hflag|]. simpl. intros p [= <-].
           split; [unfold n; lia|]. split.
           ++ rewrite HR. simpl. apply elem_of_app. right. left.
           ++ exists R. split; [exact HnR|].
              unfold anchor_parent, anchor in *. simpl. rewrite Ha. exact Hg.
        -- intros Hx.
           eapply hier_ok_transfer;
             [exact Hreg | exact Hlive | apply (B h x); [split; lia | exact Hx]].
Qed.

Lemma collect_children_hier collect disc_in fp ctx cs :
  Forall (fun c => forall s ret s', collect c s = (ret, s') ->
                   traversal_post s (option_list ret) (disc_in c s) s'
                   /\ hier_post ctx s (option_list ret) s') cs ->
  forall s crs s1,
    collect_children collect fp cs s = (crs, s1) ->
    hier_post ctx s crs s1.
Proof.
  intros Hall.
  assert (Hpost : Forall (fun c => forall s ret s', collect c s = (ret, s') ->
                     traversal_post s (option_list ret) (disc_in c s) s') cs).
  { eapply Forall_impl; [exact Hall|]. simpl. intros c Hc s ret s' E. apply Hc. exact E. }
  revert Hpost.
  induction Hall as [|c rest Hc Hrest IH]; intros Hpost s crs s1; simpl.
  - intros [= <- <-]. apply hier_post_nil.
  - apply Forall_cons in Hpost as [Hpc Hprest].
    destruct (fp (node_data c)); [|apply IH; exact Hprest].
    destruct (collect c s) as [r sa] eqn:E1.
    destruct (collect_children collect fp rest sa) as [rs sb] eqn:E2.
    intros [= <- <-].
    replace (match r with Some child_reader => child_reader :: rs | None => rs end)
      with (option_list r ++ rs) by (destruct r; reflexivity).
    destruct (Hc _ _ _ E1) as [T1 H1].
    eapply hier_post_seq; [exact T1 | | exact H1 | apply IH; [exact Hprest | exact E2]].
    eapply (collect_children_post collect disc_in fp rest Hprest); exact E2.
Qed.

(** The hierarchy invariant of [collect_readers(bmain, prim)]. *)
Lemma collect_readers_prim_hier params node :
  forall parent s ret s',
    collect_readers_prim params parent node s = (ret, s') ->
    hier_post parent s (option_list ret) s'.
Proof.
  induction node as [d children IH] using PrimNode_forall_ind.
  intros parent s ret s'. simpl.
  destruct (passes_filters params (Prim d parent)); simpl.
  - destruct (collect_children _ _ children s) as [crs s1] eqn:E.
    intros Hafter.
    change parent with (GetParent (Prim d parent)).
    eapply after_children_hier; [| |exact Hafter].
    + eapply collect_children_post; [|exact E].
      apply Forall_forall. intros x _ s0 ret0 s0'. apply collect_readers_prim_post.
    + eapply (collect_children_hier _ (discarded params (Some (Prim d parent))));
        [|exact E].
      eapply Forall_impl; [exact IH|]. simpl. intros c Hc s0 ret0 s0' E0.
      split; [apply collect_readers_prim_post; exact E0 | apply Hc; exact E0].
  - intros [= <- <-]. apply hier_post_nil.
Qed.

Lemma collect_readers_hier a stage :
  stage_ a = Some stage ->
  forall h r,
    Some h ∈ readers_ (store (collect_readers a)) ->
    heap (store (collect_readers a)) !! h = Some (Some r) ->
    hier_ok (store (collect_readers a)) h r.
Proof.
  intros Hs. unfold collect_readers. rewrite Hs.
  destruct (traversal_root stage (prim_path_mask (params_ a))) as [[root node] w].
  destruct (collect_readers_prim (params_ a) (GetParent root) node
              (clear_readers (store a))) as [ret s'] eqn:E.
  simpl. intros h r Hin Hr.
  destruct (collect_readers_prim_post _ _ _ _ _ _ E) as (_ & (regs & R & _ & P) & _).
  destruct (collect_readers_prim_hier _ _ _ _ _ _ E) as [_ B].
  simpl in R. rewrite R in Hin. destruct (P _ Hin) as (h' & Heq & Hfresh & _).
  injection Heq as <-. apply B; assumption.
Qed.

(** X4: after [collect_readers] on a valid stage the parent pointer of a
    registered reader, when set, points to a live registered reader that was
    allocated after it: no parent pointer dangles and, the pointers growing
    strictly towards the parents, the parent references form no cycle. *)
Theorem parents_are_later_registered_readers a stage :
  stage_ a = Some stage ->
  forall h r p,
    Some h ∈ readers_ (store (collect_readers a)) ->
    heap (store (collect_readers a)) !! h = Some (Some r) ->
    parent_reader_ r = Some p ->
    h < p
    /\ Some p ∈ readers_ (store (collect_readers a))
    /\ exists rp, heap (store (collect_readers a)) !! p = Some (Some rp).
Proof.
  intros Hs h r p Hin Hr Hp.
  destruct (collect_readers_hier a stage Hs h r Hin Hr) as [_ Hpar].
  destruct (Hpar p Hp) as (Hlt & Hreg & rp & Hrp & _). eauto.
Qed.

Lemma parents_are_later_registered_readers_witness :
  0 < 1
  /\ Some 1 ∈ readers_ (store (collect_readers (adapter_of xform_mesh_ops_tree all_params)))
  /\ exists rp,
       heap (store (collect_readers (adapter_of xform_mesh_ops_tree all_params))) !! 1
       = Some (Some rp).
Proof.
  eapply (parents_are_later_registered_readers
            (adapter_of xform_mesh_ops_tree all_params)
            (stage_of xform_mesh_ops_tree) eq_refl 0).
  - vm_compute. left.
  - vm_compute. reflexivity.
  - reflexivity.
Defined.

(** X5: after [collect_readers] on a valid stage the parent reader of a
    registered reader wraps the parent prim of the reader's prim, or, for a
    reader that uses its parent's transform, the parent of that parent: the
    reader hierarchy follows the prim hierarchy. *)
Theorem parent_reader_wraps_parent_prim a stage :
  stage_ a = Some stage ->
  forall h r p,
    Some h ∈ readers_ (store (collect_readers a)) ->
    heap (store (collect_readers a)) !! h = Some (Some r) ->
    parent_reader_ r = Some p ->
    exists rp,
      heap (store (collect_readers a)) !! p = Some (Some rp)
      /\ (use_parent_xform_ r = false -> GetParent (prim_ r) = Some (prim_ rp))
      /\ (use_parent_xform_ r = true ->
          exists q, GetParent (prim_ r) = Some q /\ GetParent q = Some (prim_ rp)).
Proof.
  intros Hs h r p Hin Hr Hp.
  destruct (collect_readers_hier a stage Hs h r Hin Hr) as [_ Hpar].
  destruct (Hpar p Hp) as (_ & _ & rp & Hrp & Ha).
  exists rp. split; [exact Hrp|].
  unfold anchor_parent, anchor in Ha. split; intros Hflag; rewrite Hflag in Ha.
  - exact Ha.
  - destruct (GetParent (prim_ r)) as [q|]; [|discriminate]. eauto.
Qed.

Lemma parent_reader_wraps_parent_prim_witness :
  exists rp,
    heap (store (collect_readers (adapter_of xform_mesh_ops_tree all_params))) !! 1
    = Some (Some rp)
    /\ Some (Prim xform_data (Some (Prim root_data None))) = Some (prim_ rp).
Proof.
  destruct (parent_reader_wraps_parent_prim
              (adapter_of xform_mesh_ops_tree all_params)
              (stage_of xform_mesh_ops_tree) eq_refl 0
              {| reader_class := USDMeshReader;
                 prim_ := Prim (with_xform_ops mesh_data ["xformOp:translate"])
                            (Some (Prim xform_data (Some (Prim root_data None))));
                 parent_reader_ := Some 1; refcount_ := 1;
                 use_parent_xform_ := false; object_ := Some 0 |} 1)
    as (rp & Hrp & Hplain & _).
  - vm_compute. left.
  - reflexivity.
  - reflexivity.
  - exists rp. split; [exact Hrp|]. exact (Hplain eq_refl).
Defined.

(** X6: after [collect_readers] on a valid stage a registered reader is
    flagged as using its parent's transform only if it is an Xform-family
    reader whose prim has an Xform parent, is itself neither an Xform nor a
    Scope and carries no transform operations: the traversal never merges a
    prim with authored transform ops, and never an Xform or Scope. *)
Theorem flagged_readers_met_merge_conditions a stage :
  stage_ a = Some stage ->
  forall h r,
    Some h ∈ readers_ (store (collect_readers a)) ->
    heap (store (collect_readers a)) !! h = Some (Some r) ->
    use_parent_xform_ r = true ->
    is_xform_reader (reader_class r) = true
    /\ IsA_opt (GetParent (prim_ r)) UsdGeomXform = true
    /\ IsA (prim_ r) UsdGeomXform = false
    /\ IsA (prim_ r) UsdGeomScope = false
    /\ xform_ops (prim_data (prim_ r)) = [].
Proof.
  intros Hs h r Hin Hr Hflag.
  destruct (collect_readers_hier a stage Hs h r Hin Hr) as [Hm _].
  destruct (Hm Hflag) as (H1 & H2 & H3 & H4 & H5).
  repeat split; auto.
  unfold prim_has_xform_ops in H5.
  destruct (xform_ops (prim_data (prim_ r))); [reflexivity | discriminate].
Qed.

Lemma flagged_readers_met_merge_conditions_witness :
  IsA_opt (GetParent (prim_ (set_use_parent_xform true mesh_reader))) UsdGeomXform = true
  /\ xform_ops (prim_data (prim_ (set_use_parent_xform true mesh_reader))) = [].
Proof.
  destruct (flagged_readers_met_merge_conditions
              (adapter_of xform_mesh_tree all_params) (stage_of xform_mesh_tree) eq_refl
              0 (set_use_parent_xform true mesh_reader))
    as (_ & H2 & _ & _ & H5).
  - vm_compute. left.
  - reflexivity.
  - reflexivity.
  - split; assumption.
Defined.

(** *** Wiring several children *)

Lemma try_merge_not_single crs s : length crs <> 1 -> fst (try_merge crs s) = false.
Proof.
  destruct crs as [|c [|c' crs]]; simpl; auto. intros H. contradiction.
Qed.

(** X7: at a prim other than the pseudo-root whose recursion produced no or
    several child readers nothing is merged: if no reader class applies,
    nothing is returned and the store stays as the children left it;
    otherwise the prim's reader is allocated at the next free pointer,
    appended to the registry and returned, every live child reader gets it
    as parent with all its other fields kept, and no other reader that
    existed changes. *)
Theorem several_children_are_parented params parent d children s crs s1 :
  passes_filters params (Prim d parent) = true ->
  IsPseudoRoot (Prim d parent) = false ->
  collect_children (collect_readers_prim params (Some (Prim d parent)))
    (UsdPrimDefaultPredicate (import_instance_proxies params)) children s = (crs, s1) ->
  length crs <> 1 ->
  match create_reader_if_allowed params (Prim d parent) with
  | None => collect_readers_prim params parent (Node d children) s = (None, s1)
  | Some k =>
      exists s',
        collect_readers_prim params parent (Node d children) s
        = (Some (length (heap s1)), s')
        /\ readers_ s' = readers_ s1 ++ [Some (length (heap s1))]
        /\ (exists r, heap s' !! length (heap s1) = Some (Some r)
                      /\ reader_class r = k /\ prim_ r = Prim d parent
                      /\ parent_reader_ r = None)
        /\ (forall c r, c ∈ crs -> heap s1 !! c = Some (Some r) ->
              heap s' !! c = Some (Some (set_parent (length (heap s1)) r)))
        /\ (forall h, h ∉ crs -> h < length (heap s1) -> heap s' !! h = heap s1 !! h)
  end.
Proof.
  intros Hf Hroot E Hlen.
  pose proof (try_merge_not_single crs s1 Hlen) as Hm.
  rewrite (collect_without_merge _ _ _ _ _ _ _ Hf Hroot E Hm).
  destruct (create_reader_if_allowed params (Prim d parent)) as [k|] eqn:Ek.
  - rewrite (create_and_register_eq _ _ _ _ k Ek).
    eexists. split; [reflexivity|]. unfold registered_store.
    match goal with |- context [set_parents crs ?n ?s0] =>
      destruct (set_parents_fields crs n s0) as (HR & _ & _);
      pose proof (set_parents_lookup crs n s0) as Hlook end.
    simpl in HR, Hlook.
    assert (Hn : length (heap s1) ∉ crs).
    { intros Hin.
      assert (Hpost : traversal_post s crs
                (discarded_children (collect_readers_prim params (Some (Prim d parent)))
                   (discarded params (Some (Prim d parent)))
                   (UsdPrimDefaultPredicate (import_instance_proxies params)) children s) s1).
      { eapply collect_children_post; [|exact E].
        apply Forall_forall. intros x _ s0 ret s0'. apply collect_readers_prim_post. }
      destruct Hpost as (_ & _ & _ & Ret & _).
      destruct (Ret _ Hin) as [[? ?] _]. lia. }
    split; [exact HR|]. split; [|split].
    + eexists. rewrite Hlook.
      destruct (decide (length (heap s1) ∈ crs)); [contradiction|].
      rewrite lookup_snoc_last. split; [reflexivity|]. simpl. auto.
    + intros c r Hin Hr. rewrite Hlook.
      destruct (decide (c ∈ crs)); [|contradiction].
      rewrite (lookup_app_l_Some _ _ _ _ Hr). reflexivity.
    + intros h Hnin Hlt. rewrite Hlook.
      destruct (decide (h ∈ crs)); [contradiction|].
      apply lookup_app_l. exact Hlt.
  - unfold create_and_register. rewrite Ek. reflexivity.
Qed.

Lemma several_children_are_parented_witness :
  exists s',
    collect_readers_prim all_params (Some (Prim root_data None))
      (Node xform_data two_meshes) empty_store = (Some 2, s')
    /\ readers_ s' = [Some 0; Some 1; Some 2]
    /\ (exists r0, heap s' !! 0 = Some (Some r0) /\ parent_reader_ r0 = Some 2)
    /\ (exists r1, heap s' !! 1 = Some (Some r1) /\ parent_reader_ r1 = Some 2).
Proof.
  pose proof (several_children_are_parented all_params (Some (Prim root_data None))
                xform_data two_meshes empty_store [0; 1] _ eq_refl eq_refl eq_refl) as H.
  simpl in H. destruct H as (s' & Hcall & Hreg & _ & Hkids & _); [discriminate|].
  exists s'. split; [exact Hcall|]. split; [exact Hreg|]. split.
  - eexists. split; [apply Hkids; [left | reflexivity] | reflexivity].
  - eexists. split; [apply Hkids; [right; left | reflexivity] | reflexivity].
Defined.

(** *** Children the predicate leaves out *)

Lemma collect_children_app collect fp l1 l2 s :
  collect_children collect fp (l1 ++ l2) s
  = (fst (collect_children collect fp l1 s)
       ++ fst (collect_children collect fp l2 (snd (collect_children collect fp l1 s))),
     snd (collect_children collect fp l2 (snd (collect_children collect fp l1 s)))).
Proof.
  revert s. induction l1 as [|c l1 IH]; intros s; simpl.
  - destruct (collect_children collect fp l2 s). reflexivity.
  - destruct (fp (node_data c)); [|apply IH].
    destruct (collect c s) as [r sa]. rewrite IH.
    destruct (collect_children collect fp l1 sa) as [rs sb]. simpl.
    destruct r; reflexivity.
Qed.

Lemma collect_children_cons collect fp c rest s :
  fp (node_data c) = true ->
  collect_children collect fp (c :: rest) s
  = (option_list (fst (collect c s))
       ++ fst (collect_children collect fp rest (snd (collect c s))),
     snd (collect_children collect fp rest (snd (collect c s)))).
Proof.
  intros H. simpl. rewrite H. destruct (collect c s) as [r sa]. simpl.
  destruct (collect_children collect fp rest sa). destruct r; reflexivity.
Qed.

(** X8: which children the traversal visits.  A child that is inactive,
    undefined, unloaded or abstract, or that is an instance proxy while
    [import_instance_proxies] is off, is not visited: the traversal of its
    parent gives the same result and store as if the child and its whole
    subtree were not there.  Every other child (active, defined, loaded, not
    abstract, and not an instance proxy unless [import_instance_proxies] is
    on) is traversed in its turn, and its reader, if it returns one, is
    collected. *)
Theorem child_predicate_decides_visit params parent d before child after s :
  (is_active (node_data child) = false
   \/ is_defined (node_data child) = false
   \/ is_loaded (node_data child) = false
   \/ is_abstract (node_data child) = true
   \/ (is_instance_proxy (node_data child) = true
       /\ import_instance_proxies params = false) ->
   collect_readers_prim params parent (Node d (before ++ child :: after)) s
   = collect_readers_prim params parent (Node d (before ++ after)) s)
  /\ (is_active (node_data child) = true ->
      is_defined (node_data child) = true ->
      is_loaded (node_data child) = true ->
      is_abstract (node_data child) = false ->
      is_instance_proxy (node_data child) = false
      \/ import_instance_proxies params = true ->
      collect_children (collect_readers_prim params (Some (Prim d parent)))
        (UsdPrimDefaultPredicate (import_instance_proxies params)) (child :: after) s
      = (option_list (fst (collect_readers_prim params (Some (Prim d parent)) child s))
           ++ fst (collect_children (collect_readers_prim params (Some (Prim d parent)))
                     (UsdPrimDefaultPredicate (import_instance_proxies params)) after
                     (snd (collect_readers_prim params (Some (Prim d parent)) child s))),
         snd (collect_children (collect_readers_prim params (Some (Prim d parent)))
                (UsdPrimDefaultPredicate (import_instance_proxies params)) after
                (snd (collect_readers_prim params (Some (Prim d parent)) child s))))).
Proof.
  split.
  - intros H.
    assert (Hp : UsdPrimDefaultPredicate (import_instance_proxies params)
                   (node_data child) = false).
    { unfold UsdPrimDefaultPredicate.
      destruct H as [-> | [-> | [-> | [-> | [-> ->]]]]];
        repeat match goal with
               | |- context [?b && _] => is_var b; destruct b
               | |- context [is_active ?x] => destruct (is_active x)
               | |- context [is_defined ?x] => destruct (is_defined x)
               | |- context [is_loaded ?x] => destruct (is_loaded x)
               | |- context [is_abstract ?x] => destruct (is_abstract x)
               | |- context [is_instance_proxy ?x] => destruct (is_instance_proxy x)
               | |- context [import_instance_proxies ?x] =>
                   destruct (import_instance_proxies x)
               end; reflexivity. }
    simpl. destruct (passes_filters params (Prim d parent)); simpl; [|reflexivity].
    rewrite !collect_children_app. simpl. rewrite Hp. reflexivity.
  - intros Ha Hd Hl Hab Hpx.
    assert (Hp : UsdPrimDefaultPredicate (import_instance_proxies params)
                   (node_data child) = true).
    { unfold UsdPrimDefaultPredicate. rewrite Ha, Hd, Hl, Hab. simpl.
      destruct Hpx as [-> | ->]; simpl; [apply orb_true_r | reflexivity]. }
    apply collect_children_cons. exact Hp.
Qed.

Lemma child_predicate_decides_visit_witness :
  (collect_readers_prim no_proxy_params None (Node root_data [proxy_mesh]) empty_store
   = collect_readers_prim no_proxy_params None (Node root_data []) empty_store)
  /\ (collect_readers_prim all_params None inactive_sibling_tree empty_store
      = collect_readers_prim all_params None
          (Node root_data [Node (plain_prim "a" (Some UsdGeomMesh)) []]) empty_store)
  /\ fst (collect_children (collect_readers_prim all_params (Some (Prim root_data None)))
            (UsdPrimDefaultPredicate (import_instance_proxies all_params))
            [proxy_mesh] empty_store) = [0].
Proof.
  split; [|split].
  - exact (proj1 (child_predicate_decides_visit no_proxy_params None root_data
                    [] proxy_mesh [] empty_store)
             (or_intror (or_intror (or_intror (or_intror (conj eq_refl eq_refl)))))).
  - exact (proj1 (child_predicate_decides_visit all_params None root_data
                    [Node (plain_prim "a" (Some UsdGeomMesh)) []] inactive_mesh []
                    empty_store)
             (or_introl eq_refl)).
  - rewrite (proj2 (child_predicate_decides_visit all_params None root_data
                      [] proxy_mesh [] empty_store)
               eq_refl eq_refl eq_refl eq_refl (or_intror eq_refl)).
    reflexivity.
Defined.

(** *** The top of the hierarchy *)

(** X9: the traversal of the pseudo-root never returns a reader and never
    creates one for the pseudo-root itself: the store is as the traversal of
    the top-level prims left it, and each reader those handed upward is a
    live registered reader with its host object and without parent. *)
Theorem top_level_readers_have_no_parent params node s :
  fst (collect_readers_prim params None node s) = None
  /\ forall crs s1,
       passes_filters params (Prim (node_data node) None) = true ->
       collect_children (collect_readers_prim params (Some (Prim (node_data node) None)))
         (UsdPrimDefaultPredicate (import_instance_proxies params))
         (node_children node) s = (crs, s1) ->
       snd (collect_readers_prim params None node s) = s1
       /\ forall c, c ∈ crs -> registered_orphan s1 c.
Proof.
  destruct node as [d children]. simpl node_data. simpl node_children. split.
  - simpl. destruct (passes_filters params (Prim d None)); simpl; [|reflexivity].
    destruct (collect_children _ _ children s) as [crs s1]. reflexivity.
  - intros crs s1 Hf E. simpl. rewrite Hf. simpl. simpl in E. rewrite E.
    split; [reflexivity|]. intros c Hin.
    assert (Hpost : traversal_post s crs
              (discarded_children (collect_readers_prim params (Some (Prim d None)))
                 (discarded params (Some (Prim d None)))
                 (UsdPrimDefaultPredicate (import_instance_proxies params)) children s) s1).
    { eapply collect_children_post; [|exact E].
      apply Forall_forall. intros x _ s0 ret s0'. apply collect_readers_prim_post. }
    destruct Hpost as (_ & _ & _ & Ret & _). apply Ret. exact Hin.
Qed.

Lemma top_level_readers_have_no_parent_witness :
  snd (collect_readers_prim all_params None xform_mesh_tree empty_store)
  = merged_store 0 mesh_store
  /\ registered_orphan (merged_store 0 mesh_store) 0.
Proof.
  destruct (proj2 (top_level_readers_have_no_parent all_params xform_mesh_tree
                     empty_store) [0] (merged_store 0 mesh_store) eq_refl eq_refl)
    as [Hs Horph].
  split; [exact Hs|]. apply Horph. left.
Defined.

(** *** [create_reader] and [create_reader_if_allowed] *)

(** X10: [create_reader] is [create_reader_if_allowed] with every import
    category enabled; whatever the options, the two return no reader for the
    same prims (those that are not imageable), and a reader
    [create_reader_if_allowed] returns is of the class [create_reader]
    returns or, for a disabled category, the generic Xform reader. *)
Theorem create_reader_agrees params prim :
  (import_cameras params && import_curves params && import_meshes params
   && import_lights params && import_volumes params = true ->
   create_reader_if_allowed params prim = create_reader prim)
  /\ (create_reader_if_allowed params prim = None <-> create_reader prim = None)
  /\ (create_reader prim = None <-> IsA prim UsdGeomImageable = false)
  /\ (forall k, create_reader_if_allowed params prim = Some k ->
        create_reader prim = Some k \/ k = USDXformReader).
Proof.
  split.
  { intros H. repeat (apply andb_true_iff in H as [H ?]).
    unfold create_reader_if_allowed, create_reader.
    repeat match goal with
           | E : _ params = true |- _ => rewrite E; clear E
           end.
    reflexivity. }
  unfold create_reader_if_allowed, create_reader, IsA.
  destruct (typeName (prim_data prim)) as [t|];
    [destruct t|];
    destruct (import_cameras params), (import_curves params), (import_meshes params),
      (import_lights params), (import_volumes params);
    vm_compute; repeat split; intros; try congruence;
    match goal with
    | H : Some _ = Some _ |- _ => injection H as <-; auto
    end.
Qed.

Lemma create_reader_agrees_witness :
  create_reader_if_allowed all_params (Prim mesh_data None)
  = create_reader (Prim mesh_data None).
Proof.
  exact (proj1 (create_reader_agrees all_params (Prim mesh_data None)) eq_refl).
Defined.

(** *** [merge_with_parent] *)



(** *** The filters and the options *)

(** X12: the filters are monotone in the options: a prim that passes the
    purpose and visibility tests passes them under any options that import
    at least the same purposes and are not stricter on visibility; the
    import categories and the mask play no part. *)
Theorem filters_are_monotone params params' prim :
  admits_more params params' ->
  (include_by_purpose params prim = true -> include_by_purpose params' prim = true)
  /\ (include_by_visibility params prim = true ->
      include_by_visibility params' prim = true)
  /\ (passes_filters params prim = true -> passes_filters params' prim = true).
Proof.
  intros (Hg & Hp & Hr & Hv).
  assert (P : include_by_purpose params prim = true ->
              include_by_purpose params' prim = true).
  { unfold include_by_purpose.
    destruct (import_guide params), (import_proxy params), (import_render params),
      (import_guide params'), (import_proxy params'), (import_render params');
      simpl; auto; try (discriminate (Hg eq_refl)); try (discriminate (Hp eq_refl));
      try (discriminate (Hr eq_refl));
      destruct (purpose_attr (prim_data prim)) as [a|]; auto;
      repeat match goal with
             | |- context [if ?b then _ else _] => destruct b; auto
             end. }
  assert (V : include_by_visibility params prim = true ->
              include_by_visibility params' prim = true).
  { unfold include_by_visibility.
    destruct (import_visible_only params'); simpl; auto.
    rewrite (Hv eq_refl). simpl. auto. }
  split; [exact P|]. split; [exact V|].
  unfold passes_filters. destruct (IsA prim UsdGeomImageable); auto.
  intros H. apply andb_true_iff in H as [? ?]. apply andb_true_iff. auto.
Qed.

Lemma filters_are_monotone_witness :
  passes_filters all_params
    (Prim (with_purpose mesh_data (static_attr UsdGeomTokens.render)) None) = true.
Proof.
  apply (proj2 (proj2 (filters_are_monotone no_guide_params all_params
                         (Prim (with_purpose mesh_data (static_attr UsdGeomTokens.render))
                            None)
                         (conj (fun H => eq_refl)
                            (conj (fun _ => eq_refl)
                               (conj (fun _ => eq_refl) (fun _ => eq_refl))))))).
  reflexivity.
Defined.

(** *** Collecting again *)

Lemma clear_reader_fields s x :
  bmain (clear_reader s x) = bmain s
  /\ length (heap (clear_reader s x)) = length (heap s).
Proof.
  destruct x as [p|]; [|auto]. unfold clear_reader.
  destruct (update_reader_fields decref p s) as (_ & B & L).
  destruct (heap (update_reader decref p s) !! p) as [[r|]|]; auto.
  destruct (refcount_ r =? 0)%Z; simpl; auto.
  rewrite length_insert. auto.
Qed.

Lemma clear_readers_fields s :
  bmain (clear_readers s) = bmain s
  /\ length (heap (clear_readers s)) = length (heap s).
Proof.
  unfold clear_readers. simpl. generalize (readers_ s). intros l. revert s.
  induction l as [|x l IH]; intros s; simpl; [auto|].
  destruct (IH (clear_reader s x)) as [B L].
  destruct (clear_reader_fields s x) as [B' L']. split; congruence.
Qed.

(** The top-level [collect_readers] on a valid stage is a traversal from the
    cleared store. *)
Lemma collect_readers_unfold a stage :
  stage_ a = Some stage ->
  exists parent node ret,
    collect_readers_prim (params_ a) parent node (clear_readers (store a))
    = (ret, store (collect_readers a))
    /\ stage_ (collect_readers a)
       = Some (SetInterpolationType UsdInterpolationTypeHeld stage).
Proof.
  intros Hs. unfold collect_readers. rewrite Hs.
  destruct (traversal_root stage (prim_path_mask (params_ a))) as [[root node] w].
  destruct (collect_readers_prim (params_ a) (GetParent root) node
              (clear_readers (store a))) as [ret s'] eqn:E.
  simpl. exists (GetParent root), node, ret. auto.
Qed.

(** X13: [collect_readers] rebuilds: called again on the adapter a first
    call on a valid stage left, it finds the stage valid, deallocates every
    reader the first call registered, registers only readers allocated
    after them, and keeps the host objects of the first call in the
    document, adding the new ones behind them. *)
Theorem collect_readers_rebuilds a stage :
  stage_ a = Some stage ->
  valid (collect_readers a) = true
  /\ all_deallocated (readers_ (store (collect_readers a)))
       (store (collect_readers (collect_readers a)))
  /\ (forall h, Some h ∈ readers_ (store (collect_readers (collect_readers a))) ->
        length (heap (store (collect_readers a))) <= h)
  /\ exists obs,
       bmain (store (collect_readers (collect_readers a)))
       = bmain (store (collect_readers a)) ++ obs.
Proof.
  intros Hs.
  destruct (collect_readers_unfold a stage Hs) as (_ & _ & _ & _ & Hs1).
  destruct (collect_readers_registry a stage Hs) as [N P].
  set (a1 := collect_readers a) in *.
  destruct (collect_readers_unfold a1 _ Hs1) as (parent & node & ret & E & _).
  destruct (clear_readers_fields (store a1)) as [B L].
  destruct (collect_readers_prim_post _ _ _ _ _ _ E)
    as ([_ U] & (regs & R & _ & Q) & _).
  destruct (collect_readers_prim_grows _ _ _ _ _ _ E) as (obs & _ & _ & Hb & _).
  split; [unfold valid; rewrite Hs1; reflexivity|]. split; [|split].
  - intros h Hin. destruct (P _ Hin) as (h' & Heq & r & Hr & Hc & _).
    injection Heq as <-.
    assert (Hcl : heap (clear_readers (store a1)) !! h = Some None).
    { unfold clear_readers. simpl.
      rewrite (proj1 (clear_loop _ N _) h r Hin Hr). rewrite Hc. reflexivity. }
    rewrite U; [exact Hcl|]. eapply lookup_lt_Some. exact Hcl.
  - intros h Hin. simpl in R. rewrite R in Hin.
    destruct (Q _ Hin) as (h' & Heq & [Hlo _] & _). injection Heq as <-.
    rewrite L in Hlo. exact Hlo.
  - exists obs. rewrite Hb, B. reflexivity.
Qed.

Lemma collect_readers_rebuilds_witness :
  all_deallocated
    (readers_ (store (collect_readers (adapter_of xform_mesh_ops_tree all_params))))
    (store (collect_readers
              (collect_readers (adapter_of xform_mesh_ops_tree all_params)))).
Proof.
  exact (proj1 (proj2 (collect_readers_rebuilds
                         (adapter_of xform_mesh_ops_tree all_params)
                         (stage_of xform_mesh_ops_tree) eq_refl))).
Defined.

(** *** At most one reader per prim *)





(** *** Reader selection in the traversal *)

(** The two invariants for the loop over the children of a prim. *)
Lemma children_invariants params prim children s crs s1 :
  collect_children (collect_readers_prim params (Some prim))
    (UsdPrimDefaultPredicate (import_instance_proxies params)) children s = (crs, s1) ->
  traversal_post s crs
    (discarded_children (collect_readers_prim params (Some prim))
       (discarded params (Some prim))
       (UsdPrimDefaultPredicate (import_instance_proxies params)) children s) s1
  /\ hier_post (Some prim) s crs s1.
Proof.
  intros E. split.
  - eapply collect_children_post; [|exact E].
    apply Forall_forall. intros x _ s0 ret s0'. apply collect_readers_prim_post.
  - eapply (collect_children_hier _ (discarded params (Some prim))); [|exact E].
    apply Forall_forall. intros x _ s0 ret s0' E0.
    split; [eapply collect_readers_prim_post | eapply collect_readers_prim_hier]; exact E0.
Qed.

(** A single child reader is merged only at an Xform prim: the child handed
    upward is either flagged already or wraps a child of the prim, whose
    parent [merge_with_parent] then tests. *)
Lemma merge_only_into_xform params prim children s crs s1 :
  collect_children (collect_readers_prim params (Some prim))
    (UsdPrimDefaultPredicate (import_instance_proxies params)) children s = (crs, s1) ->
  fst (try_merge crs s1) = true ->
  IsA prim UsdGeomXform = true.
Proof.
  intros E Hm.
  destruct (children_invariants _ _ _ _ _ _ E) as [_ [A _]].
  destruct (try_merge_true crs s1 Hm) as (c & r & -> & Hr & Hc & _).
  destruct (A c) as (r1 & a & Hr1 & Ha & Hg); [left|].
  assert (r1 = r) by congruence. subst r1.
  destruct (merge_conditions_merged_ok r Hc) as [Hflag (_ & Hx & _)].
  simpl in Hx. unfold anchor in Ha. rewrite Hflag in Ha. injection Ha as <-.
  rewrite Hg in Hx. exact Hx.
Qed.

Lemma xform_selects_generic params prim :
  IsA prim UsdGeomXform = true ->
  create_reader_if_allowed params prim = Some USDXformReader.
Proof.
  unfold create_reader_if_allowed, IsA.
  destruct (typeName (prim_data prim)) as [t|];
    [destruct t|];
    destruct (import_cameras params), (import_curves params), (import_meshes params),
      (import_lights params), (import_volumes params);
    vm_compute; congruence.
Qed.

Lemma registered_store_new_reader k prim crs s1 :
  (forall c, c ∈ crs -> c < length (heap s1)) ->
  heap (registered_store k prim crs s1) !! length (heap s1)
  = Some (Some {| reader_class := k; prim_ := prim; parent_reader_ := None;
                  refcount_ := 1; use_parent_xform_ := false;
                  object_ := Some (length (bmain s1)) |}).
Proof.
  intros Hcrs. unfold registered_store. rewrite set_parents_lookup. simpl.
  destruct (decide (length (heap s1) ∈ crs)) as [Hin|_].
  - apply Hcrs in Hin. lia.
  - apply lookup_snoc_last.
Qed.

(** C6 as stated fails: the Xform prim /xf over a mesh without transform ops
    is reached by the traversal, is imageable and of no type-specific
    category, so [create_reader_if_allowed] selects the generic Xform reader
    for it; yet the traversal merges it into the mesh reader and registers
    no reader on /xf. *)
Lemma merged_xform_gets_no_reader : ~ every_reached_prim_gets_selected_reader.
Proof.
  intros H.
  destruct (H all_params (Some (Prim root_data None)) xform_data [Node mesh_data []]
              empty_store USDXformReader eq_refl eq_refl) as (h & r & Hin & Hr & _ & Hc).
  vm_compute in Hin. apply list_elem_of_singleton in Hin. injection Hin as ->.
  vm_compute in Hr. injection Hr as <-. discriminate Hc.
Qed.

(** C6, amended: [create_reader_if_allowed] selects the type-specific reader
    exactly when the prim is of the matching schema class and that category
    is enabled (camera; basis curves or NURBS curves with curves enabled;
    mesh; light; volume), the generic Xform reader for every other imageable
    prim, a prim of a disabled category included, and no reader for a prim
    that is not imageable.  In the traversal, a prim a filter rejects gets no
    reader; a prim other than the pseudo-root that passes the filters and is
    not an Xform always gets exactly the reader selected for it (it is never
    merged into a child), created at the next free pointer after its
    children; an Xform prim gets the generic Xform reader selected for it
    unless its single child reader is merged with it, in which case it gets
    no reader and the child reader is returned in its place. *)
Theorem reader_selection_in_traversal params parent d children s :
  let prim := Prim d parent in
  let crs := fst (collect_children (collect_readers_prim params (Some prim))
                    (UsdPrimDefaultPredicate (import_instance_proxies params)) children s) in
  let s1 := snd (collect_children (collect_readers_prim params (Some prim))
                   (UsdPrimDefaultPredicate (import_instance_proxies params)) children s) in
  ((create_reader_if_allowed params prim = Some USDCameraReader
    <-> import_cameras params && IsA prim UsdGeomCamera = true)
   /\ (create_reader_if_allowed params prim = Some USDCurvesReader
       <-> import_curves params && IsA prim UsdGeomBasisCurves = true)
   /\ (create_reader_if_allowed params prim = Some USDNurbsReader
       <-> import_curves params && IsA prim UsdGeomNurbsCurves = true)
   /\ (create_reader_if_allowed params prim = Some USDMeshReader
       <-> import_meshes params && IsA prim UsdGeomMesh = true)
   /\ (create_reader_if_allowed params prim = Some USDLightReader
       <-> import_lights params && IsA prim UsdLuxLight = true)
   /\ (create_reader_if_allowed params prim = Some USDVolumeReader
       <-> import_volumes params && IsA prim UsdVolVolume = true)
   /\ (create_reader_if_allowed params prim = Some USDXformReader
       <-> IsA prim UsdGeomImageable = true
           /\ import_cameras params && IsA prim UsdGeomCamera = false
           /\ import_curves params
              && (IsA prim UsdGeomBasisCurves || IsA prim UsdGeomNurbsCurves) = false
           /\ import_meshes params && IsA prim UsdGeomMesh = false
           /\ import_lights params && IsA prim UsdLuxLight = false
           /\ import_volumes params && IsA prim UsdVolVolume = false)
   /\ (create_reader_if_allowed params prim = None
       <-> IsA prim UsdGeomImageable = false)
   /\ create_reader_if_allowed params prim <> Some USDPrimReaderOther)
  /\ (passes_filters params prim = false ->
      collect_readers_prim params parent (Node d children) s = (None, s))
  /\ (passes_filters params prim = true ->
      IsPseudoRoot prim = false ->
      IsA prim UsdGeomXform = false ->
      collect_readers_prim params parent (Node d children) s
      = match create_reader_if_allowed params prim with
        | Some k => (Some (length (heap s1)), registered_store k prim crs s1)
        | None => (None, s1)
        end
      /\ forall k, create_reader_if_allowed params prim = Some k ->
           heap (registered_store k prim crs s1) !! length (heap s1)
           = Some (Some {| reader_class := k; prim_ := prim; parent_reader_ := None;
                           refcount_ := 1; use_parent_xform_ := false;
                           object_ := Some (length (bmain s1)) |}))
  /\ (passes_filters params prim = true ->
      IsPseudoRoot prim = false ->
      IsA prim UsdGeomXform = true ->
      create_reader_if_allowed params prim = Some USDXformReader
      /\ ((collect_readers_prim params parent (Node d children) s
           = (Some (length (heap s1)), registered_store USDXformReader prim crs s1)
           /\ heap (registered_store USDXformReader prim crs s1) !! length (heap s1)
              = Some (Some {| reader_class := USDXformReader; prim_ := prim;
                              parent_reader_ := None; refcount_ := 1;
                              use_parent_xform_ := false;
                              object_ := Some (length (bmain s1)) |}))
          \/ exists c r,
               crs = [c] /\ heap s1 !! c = Some (Some r)
               /\ merge_conditions r = true
               /\ collect_readers_prim params parent (Node d children) s
                  = (Some c, merged_store c s1))).
Proof.
  intros prim crs s1. subst prim.
  assert (E : collect_children (collect_readers_prim params (Some (Prim d parent)))
                (UsdPrimDefaultPredicate (import_instance_proxies params)) children s
              = (crs, s1)).
  { unfold crs, s1. destruct (collect_children _ _ children s). reflexivity. }
  clearbody crs s1.
  destruct (children_invariants _ _ _ _ _ _ E) as [(_ & _ & _ & Ret & _) _].
  assert (Hcrs : forall c, c ∈ crs -> c < length (heap s1)).
  { intros c Hin. destruct (Ret c Hin) as [[_ ?] _]. assumption. }
  split; [|split; [|split]].
  - unfold create_reader_if_allowed, IsA. simpl.
    destruct (typeName d) as [t|];
      [destruct t|];
      destruct (import_cameras params), (import_curves params), (import_meshes params),
        (import_lights params), (import_volumes params);
      vm_compute; repeat split; intros; try congruence;
      match goal with
      | H : _ /\ _ |- _ => decompose [and] H; congruence
      end.
  - intros Hf. apply filtered_prim_is_skipped. exact Hf.
  - intros Hf Hroot Hx.
    assert (Hm : fst (try_merge crs s1) = false).
    { destruct (fst (try_merge crs s1)) eqn:Hm; [|reflexivity].
      pose proof (merge_only_into_xform _ _ _ _ _ _ E Hm). congruence. }
    rewrite (collect_without_merge _ _ _ _ _ _ _ Hf Hroot E Hm). split.
    + destruct (create_reader_if_allowed params (Prim d parent)) as [k|] eqn:Ek.
      * apply create_and_register_eq. exact Ek.
      * unfold create_and_register. rewrite Ek. reflexivity.
    + intros k _. apply registered_store_new_reader. exact Hcrs.
  - intros Hf Hroot Hx.
    pose proof (xform_selects_generic params (Prim d parent) Hx) as Ek.
    split; [exact Ek|].
    destruct (fst (try_merge crs s1)) eqn:Hm.
    + right. destruct (try_merge_true crs s1 Hm) as (c & r & -> & Hr & Hc & Hsm).
      exists c, r. split; [reflexivity|]. split; [exact Hr|]. split; [exact Hc|].
      simpl. rewrite Hf. simpl. simpl in E. rewrite E.
      unfold after_children. rewrite Hroot.
      destruct (try_merge [c] s1) as [merged sm]. simpl in Hm, Hsm. subst merged sm.
      reflexivity.
    + left. rewrite (collect_without_merge _ _ _ _ _ _ _ Hf Hroot E Hm).
      split; [apply create_and_register_eq; exact Ek|].
      apply registered_store_new_reader. exact Hcrs.
Qed.

Lemma reader_selection_in_traversal_witness :
  collect_readers_prim all_params (Some (Prim xform_data (Some (Prim root_data None))))
    (Node mesh_data []) empty_store
  = (Some 0, mesh_store)
  /\ (exists c r,
        [0] = [c] /\ heap mesh_store !! c = Some (Some r)
        /\ merge_conditions r = true
        /\ collect_readers_prim all_params (Some (Prim root_data None))
             (Node xform_data [Node mesh_data []]) empty_store
           = (Some c, merged_store c mesh_store)).
Proof.
  split.
  - exact (proj1 (proj1 (proj2 (proj2
             (reader_selection_in_traversal all_params
                (Some (Prim xform_data (Some (Prim root_data None)))) mesh_data []
                empty_store)))
             eq_refl eq_refl eq_refl)).
  - destruct (proj2 (proj2 (proj2
               (reader_selection_in_traversal all_params (Some (Prim root_data None))
                  xform_data [Node mesh_data []] empty_store)))
               eq_refl eq_refl eq_refl) as [_ [[Hown _]|Hmerged]].
    + vm_compute in Hown. discriminate Hown.
    + exact Hmerged.
Defined.

End UsdMore.

(* ===================================================================== *)
(** ** The flag enumerations of the keyframe list                         *)
(* ===================================================================== *)

Module KeylistMore.
Import Keylist KeylistFlags.
Local Open Scope list_scope.
Local Open Scope Z_scope.

Lemma nonzero_test m v : negb (Z.land m v =? 0) = true <-> Z.land m v <> 0.
Proof.
  destruct (Z.eqb_spec (Z.land m v) 0); simpl; split; congruence.
Qed.

Lemma lor_nonzero p q : Z.lor p q <> 0 <-> p <> 0 \/ q <> 0.
Proof.
  rewrite Z.lor_eq_0_iff.
  destruct (Z.eq_dec p 0), (Z.eq_dec q 0); intuition congruence.
Qed.

Lemma block_flag_bits f g :
  Z.land (block_flag_value f) (block_flag_value g) <> 0 <-> f = g.
Proof.
  destruct f, g; vm_compute; split; congruence.
Qed.

Lemma extreme_bits f g :
  g <> KEYFRAME_EXTREME_NONE ->
  (Z.land (extreme_value f) (extreme_value g) <> 0 <-> f = g).
Proof.
  destruct f, g; vm_compute; split; congruence.
Qed.

(** X15: the five hold flags of [eActKeyBlock_Hold] occupy different bits:
    in any combination of flags (their bitwise or, as kept in
    [ActKeyBlockInfo.flag]) the test of a flag tells exactly whether that
    flag was combined in, and any combination fits the [short] it is stored
    in. *)
Theorem block_flags_decode flags f :
  (has_block_flag (combine_block_flags flags) f = true <-> In f flags)
  /\ fits_short (combine_block_flags flags)
  /\ 0 <= combine_block_flags flags <= 31.
Proof.
  split.
  - unfold has_block_flag. rewrite nonzero_test.
    induction flags as [|x l IH]; simpl.
    + split; [intros H; contradiction H; reflexivity | intros []].
    + rewrite Z.land_lor_distr_l, lor_nonzero, block_flag_bits, IH. reflexivity.
  - assert (H : 0 <= combine_block_flags flags
                /\ Z.log2 (combine_block_flags flags) <= 4).
    { induction flags as [|x l [IH1 IH2]]; simpl; [split; [lia | vm_compute; congruence]|].
      assert (Hx : 0 <= block_flag_value x /\ Z.log2 (block_flag_value x) <= 4)
        by (destruct x; vm_compute; split; congruence).
      destruct Hx as [Hx1 Hx2]. split.
      - apply Z.lor_nonneg. auto.
      - rewrite Z.log2_lor by assumption. lia. }
    destruct H as [H0 Hlog].
    assert (Hb : combine_block_flags flags <= 31).
    { destruct (Z.eq_dec (combine_block_flags flags) 0) as [->|Hne]; [lia|].
      assert (Hlt : combine_block_flags flags < 2 ^ 5)
        by (apply Z.log2_lt_pow2; lia).
      change (2 ^ 5) with 32 in Hlt. lia. }
    unfold fits_short. lia.
Qed.

(** X16: the four extreme bits of [eKeyframeExtremeDrawOpts] occupy
    different bits, so in any combination the test of one of them tells
    exactly whether it was combined in, while [KEYFRAME_EXTREME_NONE], being
    0, contributes nothing and never tests true; any combination fits the
    [char] of [ActKeyColumn.extreme_type], as does every handle and shape
    enumerator. *)
Theorem extreme_flags_decode flags f :
  (f <> KEYFRAME_EXTREME_NONE ->
   (has_extreme (combine_extremes flags) f = true <-> In f flags))
  /\ has_extreme (combine_extremes flags) KEYFRAME_EXTREME_NONE = false
  /\ combine_extremes (KEYFRAME_EXTREME_NONE :: flags) = combine_extremes flags
  /\ fits_char (combine_extremes flags)
  /\ (forall h, fits_char (handle_value h))
  /\ (forall o, fits_char (shape_value o)).
Proof.
  split; [|split; [|split; [|split; [|split]]]].
  - intros Hf. unfold has_extreme. rewrite nonzero_test.
    induction flags as [|x l IH]; simpl.
    + split; [intros H; contradiction H; reflexivity | intros []].
    + rewrite Z.land_lor_distr_l, lor_nonzero, (extreme_bits x f Hf), IH. reflexivity.
  - unfold has_extreme. simpl. rewrite Z.land_0_r. reflexivity.
  - reflexivity.
  - assert (H : 0 <= combine_extremes flags /\ Z.log2 (combine_extremes flags) <= 3).
    { induction flags as [|x l [IH1 IH2]]; simpl; [split; [lia | vm_compute; congruence]|].
      assert (Hx : 0 <= extreme_value x /\ Z.log2 (extreme_value x) <= 3)
        by (destruct x; vm_compute; split; congruence).
      destruct Hx as [Hx1 Hx2]. split.
      - apply Z.lor_nonneg. auto.
      - rewrite Z.log2_lor by assumption. lia. }
    destruct H as [H0 Hlog].
    assert (Hb : combine_extremes flags <= 15).
    { destruct (Z.eq_dec (combine_extremes flags) 0) as [->|Hne]; [lia|].
      assert (Hlt : combine_extremes flags < 2 ^ 4)
        by (apply Z.log2_lt_pow2; lia).
      change (2 ^ 4) with 16 in Hlt. lia. }
    unfold fits_char. lia.
  - intros h. unfold fits_char. destruct h; simpl; lia.
  - intros o. unfold fits_char. destruct o; simpl; lia.
Qed.

Lemma extreme_flags_decode_witness :
  has_extreme
    (combine_extremes [KEYFRAME_EXTREME_MIN; KEYFRAME_EXTREME_FLAT]) KEYFRAME_EXTREME_FLAT
  = true.
Proof.
  apply (proj1 (extreme_flags_decode [KEYFRAME_EXTREME_MIN; KEYFRAME_EXTREME_FLAT]
                  KEYFRAME_EXTREME_FLAT)).
  - discriminate.
  - right. left. reflexivity.
Defined.

End KeylistMore.
